(** * ZslProcessor: the zero-shutter-lag correlation engine

    A shallow embedding of
    [services/camera/libcameraservice/camera2/ZslProcessor.cpp]:
    the ring of (buffer, metadata) pairs, the history of metadata records,
    the timestamp correlator, the admission of new buffers with its
    eviction, the RUNNING/LOCKED state and the hand-off for reprocessing.

    Conventions.
    - [nsecs_t] and [int64_t] are [Z] with the wrap-around of the 64-bit
      arithmetic written out ([wrap64]); [int] is [Z] with the one of the
      32-bit arithmetic ([to_int32]).
    - [size_t] cursors are [nat]; they stay below the depth of their ring.
    - A [Vector] is a [list]; an access out of range is a fault, and a
      faulting call returns [None].
    - Everything runs under [mInputMutex]; one call is one atomic step.
    - Logging and tracing change no state and are left out, but for the
      one message that [onBufferReleased] is about. *)

From Stdlib Require Import ZArith Lia.
From stdpp Require Import base tactics option list numbers.

(** ** Machine integers *)

Abbreviation nsecs_t := Z (only parsing).

Definition wrap64 (z : Z) : Z := ((z + 2 ^ 63) mod 2 ^ 64 - 2 ^ 63)%Z.

(** [a - b] on [int64_t]. *)
Definition sub64 (a b : Z) : Z := wrap64 (a - b).

(** Conversion to [int], which has 32 bits: the low 32 bits, read as a
    signed number. *)
Definition to_int32 (z : Z) : Z := ((z + 2 ^ 31) mod 2 ^ 32 - 2 ^ 31)%Z.

(** [abs]: the file includes C headers only ([utils/Log.h] and the like,
    neither [<cstdlib>] nor [<cmath>]), so the declaration in reach is the
    C library's [int abs(int)], with no overload for 64-bit integers.  A
    64-bit argument is converted to [int] at the call ([to_int32]); for the
    least [int] the negation wraps. *)
Definition abs (j : Z) : Z := to_int32 (Z.abs j).

(** Conversion to [uint8_t], as in [uint8_t inputStreams[1] = { id }]. *)
Definition to_uint8 (z : Z) : Z := (z mod 256)%Z.

(** ** Status codes

    [status_t] is an [int]; the values are those of [utils/Errors.h]
    ([OK = 0], [BAD_VALUE = -EINVAL], [INVALID_OPERATION = -ENOSYS]). *)

Abbreviation status_t := Z (only parsing).
Definition OK : status_t := 0%Z.
Definition BAD_VALUE : status_t := (-22)%Z.
Definition INVALID_OPERATION : status_t := (-38)%Z.

(** The implicit conversion of [return false;] in a function that returns
    [status_t]. *)
Definition status_of_bool (b : bool) : status_t := if b then 1%Z else 0%Z.

(** ** Metadata *)

Inductive Tag :=
  | ANDROID_SENSOR_TIMESTAMP
  | ANDROID_REQUEST_TYPE
  | ANDROID_REQUEST_INPUT_STREAMS
  | ANDROID_REQUEST_OUTPUT_STREAMS
  | ANDROID_REQUEST_ID
  | OTHER_TAG (n : N).

#[global] Instance Tag_eq_dec : EqDecision Tag.
Proof. solve_decision. Defined.

Definition ANDROID_REQUEST_TYPE_REPROCESS : Z := 1%Z.

(** Modelled from the spec: the class [CameraMetadata] ([CameraMetadata.h]
    is not part of the sources).  A record is a list of tagged entries; it
    is empty when it has none.  [find] reports the number of values of the
    entry, 0 when the tag is missing; [acquire] moves the content of its
    argument and leaves it empty; assignment copies. *)
Module CameraMetadata.

Record camera_metadata_entry_t := { count : nat; data_i64 : list Z }.

Definition t := list (Tag * list Z).

Definition empty : t := [].

Definition isEmpty (m : t) : bool :=
  match m with [] => true | _ :: _ => false end.

Fixpoint find (tag : Tag) (m : t) : camera_metadata_entry_t :=
  match m with
  | [] => {| count := 0; data_i64 := [] |}
  | (tg, d) :: m' =>
      if decide (tg = tag) then {| count := length d; data_i64 := d |}
      else find tag m'
  end.

(** [update] with the outcome [res] of the call: on [OK] the entry is
    replaced, or appended when the tag is new. *)
Fixpoint set_entry (tag : Tag) (d : list Z) (m : t) : t :=
  match m with
  | [] => [(tag, d)]
  | (tg, d') :: m' =>
      if decide (tg = tag) then (tag, d) :: m'
      else (tg, d') :: set_entry tag d m'
  end.

Definition update (res : status_t) (tag : Tag) (d : list Z) (m : t) : t :=
  if decide (res = OK) then set_entry tag d m else m.

(** [dst.acquire(src)]: the pair (new [dst], new [src]). *)
Definition acquire (src : t) : t * t := (src, empty).

End CameraMetadata.

(** ** Buffers and pair slots *)

(** [mGraphicBuffer] is a strong pointer; the buffer is identified by its
    handle, [None] is the null pointer.  A default item has timestamp 0. *)
Record BufferItem := {
  mGraphicBuffer : option Z;
  mTimestamp : nsecs_t
}.

Definition BufferItem_default : BufferItem :=
  {| mGraphicBuffer := None; mTimestamp := 0%Z |}.

Record ZslPair := {
  buffer : BufferItem;
  frame : CameraMetadata.t
}.

Definition ZslPair_default : ZslPair :=
  {| buffer := BufferItem_default; frame := CameraMetadata.empty |}.

(** [&(item.mGraphicBuffer->handle)]: the address of the handle of the
    item's graphic buffer. *)
Definition handle_of (item : BufferItem) : option Z := mGraphicBuffer item.

(** ** The buffer source *)

(** Modelled from the spec: the buffer source ([BufferItemConsumer] is
    declared outside the source file), with its two calls
    [acquireBuffer] and [releaseBuffer].  Its state is the items waiting to
    be acquired, oldest first, and the log of the items given back. *)
Record BufferItemConsumer := {
  queuedItems : list BufferItem;
  releasedItems : list BufferItem
}.

Definition releaseBuffer (item : BufferItem) (c : BufferItemConsumer)
  : BufferItemConsumer :=
  {| queuedItems := queuedItems c;
     releasedItems := releasedItems c ++ [item] |}.

(** ** The processor

    The members of [ZslProcessor] that the operations below read or write;
    the stream and window members, which only [updateStream] and
    [deleteStream] touch, are left out.  [mZslConsumer] is the consumer
    itself, not a pointer to it: the operations are those of a processor
    whose consumer exists, as it does between [updateStream] and
    [deleteStream]. *)

Definition NO_STREAM : Z := (-1)%Z.

Inductive State := RUNNING | LOCKED.

#[global] Instance State_eq_dec : EqDecision State.
Proof. solve_decision. Defined.

Record ZslProcessor := {
  mState : State;
  mZslBufferAvailable : bool;
  mZslReprocessStreamId : Z;
  mZslConsumer : BufferItemConsumer;
  mFrameList : list CameraMetadata.t;
  mFrameListHead : nat;
  mZslQueue : list ZslPair;
  mZslQueueHead : nat;
  mZslQueueTail : nat
}.

Definition set_mState (s : State) (st : ZslProcessor) : ZslProcessor :=
  {| mState := s;
     mZslBufferAvailable := mZslBufferAvailable st;
     mZslReprocessStreamId := mZslReprocessStreamId st;
     mZslConsumer := mZslConsumer st;
     mFrameList := mFrameList st;
     mFrameListHead := mFrameListHead st;
     mZslQueue := mZslQueue st;
     mZslQueueHead := mZslQueueHead st;
     mZslQueueTail := mZslQueueTail st |}.

Definition set_mZslBufferAvailable (b : bool) (st : ZslProcessor)
  : ZslProcessor :=
  {| mState := mState st;
     mZslBufferAvailable := b;
     mZslReprocessStreamId := mZslReprocessStreamId st;
     mZslConsumer := mZslConsumer st;
     mFrameList := mFrameList st;
     mFrameListHead := mFrameListHead st;
     mZslQueue := mZslQueue st;
     mZslQueueHead := mZslQueueHead st;
     mZslQueueTail := mZslQueueTail st |}.

Definition set_mZslConsumer (c : BufferItemConsumer) (st : ZslProcessor)
  : ZslProcessor :=
  {| mState := mState st;
     mZslBufferAvailable := mZslBufferAvailable st;
     mZslReprocessStreamId := mZslReprocessStreamId st;
     mZslConsumer := c;
     mFrameList := mFrameList st;
     mFrameListHead := mFrameListHead st;
     mZslQueue := mZslQueue st;
     mZslQueueHead := mZslQueueHead st;
     mZslQueueTail := mZslQueueTail st |}.

Definition set_frames (fl : list CameraMetadata.t) (h : nat)
    (st : ZslProcessor) : ZslProcessor :=
  {| mState := mState st;
     mZslBufferAvailable := mZslBufferAvailable st;
     mZslReprocessStreamId := mZslReprocessStreamId st;
     mZslConsumer := mZslConsumer st;
     mFrameList := fl;
     mFrameListHead := h;
     mZslQueue := mZslQueue st;
     mZslQueueHead := mZslQueueHead st;
     mZslQueueTail := mZslQueueTail st |}.

Definition set_queue (q : list ZslPair) (h t : nat) (st : ZslProcessor)
  : ZslProcessor :=
  {| mState := mState st;
     mZslBufferAvailable := mZslBufferAvailable st;
     mZslReprocessStreamId := mZslReprocessStreamId st;
     mZslConsumer := mZslConsumer st;
     mFrameList := mFrameList st;
     mFrameListHead := mFrameListHead st;
     mZslQueue := q;
     mZslQueueHead := h;
     mZslQueueTail := t |}.

(** [v.editItemAt(i) = x] and [v.replaceAt(x, i)]: a fault out of range. *)
Definition replaceAt {A} (i : nat) (x : A) (v : list A) : option (list A) :=
  if decide (i < length v) then Some (<[i := x]> v) else None.

(** ** The correlator: [findMatchesLocked] *)

(** Lines 394-405: the test on the two timestamps.  The difference is
    taken on 64 bits, converted to [int] for [abs], and the [int] that
    [abs] returns is widened to the [int64_t delta]. *)
Definition timestampsMatch (bufferTimestamp frameTimestamp : nsecs_t) : bool :=
  if decide (bufferTimestamp = frameTimestamp) then true
  else
    let delta := abs (to_int32 (sub64 bufferTimestamp frameTimestamp)) in
    bool_decide (delta < 1000000)%Z.

(** Lines 383-406: the value of [match] for the record [frame]. *)
Definition frameMatches (bufferTimestamp : nsecs_t) (frame : CameraMetadata.t)
  : bool :=
  if CameraMetadata.isEmpty frame then false
  else
    let entry := CameraMetadata.find ANDROID_SENSOR_TIMESTAMP frame in
    if decide (CameraMetadata.count entry = 0) then false (* continue *)
    else
      match CameraMetadata.data_i64 entry !! 0 with
      | Some frameTimestamp => timestampsMatch bufferTimestamp frameTimestamp
      | None => false
      end.

(** Lines 382-411: the loop over [mFrameList], in ascending index.  At the
    first record with [match] set, the slot acquires it (the record of the
    history becomes empty) and the loop breaks.  The result is the record
    taken and the history afterwards; [None] when the loop ends without a
    match. *)
Fixpoint scanFrameList (bufferTimestamp : nsecs_t)
    (frames : list CameraMetadata.t)
  : option (CameraMetadata.t * list CameraMetadata.t) :=
  match frames with
  | [] => None
  | fr :: rest =>
      if frameMatches bufferTimestamp fr then
        let '(taken, emptied) := CameraMetadata.acquire fr in
        Some (taken, emptied :: rest)
      else
        match scanFrameList bufferTimestamp rest with
        | Some (taken, rest') => Some (taken, fr :: rest')
        | None => None
        end
  end.

(** Line 380: "Have buffer, no matching frame". *)
Definition seeking (queueEntry : ZslPair) : bool :=
  CameraMetadata.isEmpty (frame queueEntry)
  && negb (bool_decide (mTimestamp (buffer queueEntry) = 0%Z)).

(** Lines 368-412: the body of the loop over [mZslQueue] for one entry.
    The block under [IF_ALOGV] (lines 370-379) only prints. *)
Definition matchEntry (queueEntry : ZslPair) (frames : list CameraMetadata.t)
  : ZslPair * list CameraMetadata.t :=
  let bufferTimestamp := mTimestamp (buffer queueEntry) in
  if seeking queueEntry then
    match scanFrameList bufferTimestamp frames with
    | Some (taken, frames') =>
        ({| buffer := buffer queueEntry; frame := taken |}, frames')
    | None => (queueEntry, frames)
    end
  else (queueEntry, frames).

(** Lines 367-413: the loop over [mZslQueue], in ascending index. *)
Fixpoint matchQueue (queue : list ZslPair) (frames : list CameraMetadata.t)
  : list ZslPair * list CameraMetadata.t :=
  match queue with
  | [] => ([], frames)
  | queueEntry :: rest =>
      let '(queueEntry', frames') := matchEntry queueEntry frames in
      let '(rest', frames'') := matchQueue rest frames' in
      (queueEntry' :: rest', frames'')
  end.

Definition findMatchesLocked (st : ZslProcessor) : ZslProcessor :=
  let '(queue, frames) := matchQueue (mZslQueue st) (mFrameList st) in
  set_frames frames (mFrameListHead st)
    (set_queue queue (mZslQueueHead st) (mZslQueueTail st) st).

(** ** The operations

    [kZslBufferDepth] and [kFrameListDepth] are constants of the class
    declaration, [NO_BUFFER_AVAILABLE] is an enumerator of the consumer;
    none is fixed by the source file, so they are parameters here. *)

Section Operations.

Variable kZslBufferDepth : nat.
Variable kFrameListDepth : nat.
Variable NO_BUFFER_AVAILABLE : status_t.

(** The constructor: both rings sized and filled with default items. *)
Definition ZslProcessor_new (consumer : BufferItemConsumer) : ZslProcessor :=
  {| mState := RUNNING;
     mZslBufferAvailable := false;
     mZslReprocessStreamId := NO_STREAM;
     mZslConsumer := consumer;
     mFrameList := replicate kFrameListDepth CameraMetadata.empty;
     mFrameListHead := 0;
     mZslQueue := replicate kZslBufferDepth ZslPair_default;
     mZslQueueHead := 0;
     mZslQueueTail := 0 |}.

(** [onFrameAvailable()]: the signal that a buffer may be available. *)
Definition onFrameAvailable_signal (st : ZslProcessor) : ZslProcessor :=
  if mZslBufferAvailable st then st else set_mZslBufferAvailable true st.

(** [onFrameAvailable(frameId, frame)]: a metadata record arrives.  Line 76
    reads the first value of the timestamp entry before anything else, with
    no test on [entry.count].  The result is the processor and the caller's
    [frame] afterwards. *)
Definition onFrameAvailable (frameId : Z) (frame : CameraMetadata.t)
    (st : ZslProcessor) : option (ZslProcessor * CameraMetadata.t) :=
  let entry := CameraMetadata.find ANDROID_SENSOR_TIMESTAMP frame in
  _ ← CameraMetadata.data_i64 entry !! 0;
  if decide (mState st ≠ RUNNING) then Some (st, frame)
  else
    let '(acquired, frame') := CameraMetadata.acquire frame in
    frames ← replaceAt (mFrameListHead st) acquired (mFrameList st);
    let head := (mFrameListHead st + 1) mod kFrameListDepth in
    Some (findMatchesLocked (set_frames frames head st), frame').

(** [onBufferReleased(handle)]: the result is the processor and whether the
    mismatch was logged. *)
Definition onBufferReleased (handle : option Z) (st : ZslProcessor)
  : option (ZslProcessor * bool) :=
  pair ← mZslQueue st !! mZslQueueTail st;
  let expectedHandle := handle_of (buffer pair) in
  let logged := bool_decide (handle ≠ expectedHandle) in
  Some (set_mState RUNNING st, logged).

(** *** [pushToReprocess] *)

(** The capture device and the client are declared outside the source
    file; they are taken as parameters: the status the device gives to
    each of its two calls, and the capture stream of the client. *)
Record Camera2Device := {
  pushReprocessBuffer : Z → option Z → status_t;
  capture : CameraMetadata.t → status_t
}.

Record Camera2Client := {
  getCaptureStreamId : Z;
  getCameraDevice : Camera2Device
}.

Inductive DeviceCall :=
  | PushReprocessBuffer (streamId : Z) (handle : option Z)
  | Capture (request : CameraMetadata.t).

(** One turn of the worker's loop, as its surroundings decide it: the client
    that [mClient.promote()] gives, [None] when the client is gone, and the
    error that [acquireBuffer] reports, [OK] when it reports none. *)
Record Turn := {
  turn_client : option Camera2Client;
  turn_error : status_t
}.

(** A turn with a live client and no error. *)
Definition regular (client : Camera2Client) : Turn :=
  {| turn_client := Some client; turn_error := OK |}.

(** Lines 240-243: the loop that looks for a request, from [index] on.  It
    runs at most [kZslBufferDepth] times; [fuel] bounds it. *)
Fixpoint scanQueue (fuel : nat) (queue : list ZslPair) (head : nat)
    (request : CameraMetadata.t) (index : nat)
  : option (CameraMetadata.t * nat) :=
  if CameraMetadata.isEmpty request && bool_decide (index ≠ head) then
    match fuel with
    | 0 => None
    | S fuel' =>
        pair ← queue !! index;
        scanQueue fuel' queue head (frame pair)
          ((index + 1) mod kZslBufferDepth)
    end
  else Some (request, index).

(** [updateRes] gives the status of [request.update] for each tag.  The
    result is the status returned, the processor afterwards and the calls
    made to the device. *)
Definition pushToReprocess (requestId : Z) (client : option Camera2Client)
    (updateRes : Tag → status_t) (st : ZslProcessor)
  : option (status_t * ZslProcessor * list DeviceCall) :=
  match client with
  | None => Some (status_of_bool false, st, [])
  | Some client =>
      if decide (mZslQueueTail st ≠ mZslQueueHead st) then
        '(request, index) ← scanQueue kZslBufferDepth (mZslQueue st)
                              (mZslQueueHead st) CameraMetadata.empty
                              (mZslQueueTail st);
        if CameraMetadata.isEmpty request then Some (BAD_VALUE, st, [])
        else
          pair ← mZslQueue st !! index;
          let handle := handle_of (buffer pair) in
          let requestType := ANDROID_REQUEST_TYPE_REPROCESS in
          let res := updateRes ANDROID_REQUEST_TYPE in
          let request :=
            CameraMetadata.update res ANDROID_REQUEST_TYPE [requestType]
              request in
          let inputStreams := [to_uint8 (mZslReprocessStreamId st)] in
          let request :=
            if decide (res = OK) then
              CameraMetadata.update (updateRes ANDROID_REQUEST_INPUT_STREAMS)
                ANDROID_REQUEST_INPUT_STREAMS inputStreams request
            else request in
          let outputStreams := [to_uint8 (getCaptureStreamId client)] in
          let request :=
            if decide (res = OK) then
              CameraMetadata.update (updateRes ANDROID_REQUEST_OUTPUT_STREAMS)
                ANDROID_REQUEST_OUTPUT_STREAMS outputStreams request
            else request in
          let res := updateRes ANDROID_REQUEST_ID in
          let request :=
            CameraMetadata.update res ANDROID_REQUEST_ID [requestId]
              request in
          if decide (res ≠ OK) then Some (INVALID_OPERATION, st, [])
          else
            let device := getCameraDevice client in
            let push := PushReprocessBuffer (mZslReprocessStreamId st) handle in
            let res :=
              pushReprocessBuffer device (mZslReprocessStreamId st) handle in
            if decide (res ≠ OK) then Some (res, st, [push])
            else
              let res := capture device request in
              if decide (res ≠ OK) then Some (res, st, [push; Capture request])
              else Some (OK, set_mState LOCKED st, [push; Capture request])
      else Some (BAD_VALUE, st, [])
  end.

(** *** The worker: [processNewZslBuffer] and [threadLoop] *)

(** [mZslConsumer->acquireBuffer(&item)].  [err] is the error the consumer
    reports on this call, [OK] when it reports none: it then gives its
    oldest item, or [NO_BUFFER_AVAILABLE] when it holds none.  On an error
    nothing is taken from the consumer. *)
Definition acquireBuffer (err : status_t) (c : BufferItemConsumer)
  : status_t * BufferItem * BufferItemConsumer :=
  if decide (err = OK) then
    match queuedItems c with
    | [] => (NO_BUFFER_AVAILABLE, BufferItem_default, c)
    | item :: rest =>
        (OK, item, {| queuedItems := rest; releasedItems := releasedItems c |})
    end
  else (err, BufferItem_default, c).

Definition processNewZslBuffer (client : Camera2Client) (err : status_t)
    (st : ZslProcessor) : option (status_t * ZslProcessor) :=
  let '(res, item, consumer) := acquireBuffer err (mZslConsumer st) in
  let st := set_mZslConsumer consumer st in
  if decide (res ≠ OK) then Some (res, st)
  else if decide (mState st = LOCKED) then
    Some (OK, set_mZslConsumer (releaseBuffer item (mZslConsumer st)) st)
  else
    st ← (if decide ((mZslQueueHead st + 1) mod kZslBufferDepth
                     = mZslQueueTail st) then
            oldest ← mZslQueue st !! mZslQueueTail st;
            let consumer := releaseBuffer (buffer oldest) (mZslConsumer st) in
            queue ← replaceAt (mZslQueueTail st) ZslPair_default (mZslQueue st);
            Some (set_queue queue (mZslQueueHead st)
                    ((mZslQueueTail st + 1) mod kZslBufferDepth)
                    (set_mZslConsumer consumer st))
          else Some st);
    queueHead ← mZslQueue st !! mZslQueueHead st;
    let queueHead := {| buffer := item; frame := frame queueHead |} in
    let queueHead :=
      {| buffer := buffer queueHead; frame := CameraMetadata.empty |} in
    queue ← replaceAt (mZslQueueHead st) queueHead (mZslQueue st);
    let head := (mZslQueueHead st + 1) mod kZslBufferDepth in
    Some (OK, findMatchesLocked (set_queue queue head (mZslQueueTail st) st)).

(** Lines 307-311: the loop that drains the source.  [turns] tells, for
    each turn of the loop, what the surroundings answer ([Turn]): the
    client is promoted anew on every turn, and every acquisition can report
    an error.  The list also bounds the number of turns: the result is
    [None] when it is used up before the loop ends. *)
Fixpoint drain (turns : list Turn) (st : ZslProcessor)
  : option (bool * ZslProcessor) :=
  match turns with
  | [] => None
  | turn :: turns' =>
      match turn_client turn with
      | None => Some (false, st)
      | Some c =>
          '(res, st') ← processNewZslBuffer c (turn_error turn) st;
          if decide (res = OK) then drain turns' st'
          else Some (true, st')
      end
  end.

(** [threadLoop]; [timedOut] tells whether the bounded wait on the signal
    expires before the signal comes. *)
Definition threadLoop (timedOut : bool) (turns : list Turn)
    (st : ZslProcessor) : option (bool * ZslProcessor) :=
  if negb (mZslBufferAvailable st) && timedOut then Some (true, st)
  else drain turns (set_mZslBufferAvailable false st).

(** *** Well-formed processors *)

Record wf (st : ZslProcessor) : Prop := {
  wf_queue_depth : 0 < kZslBufferDepth;
  wf_frames_depth : 0 < kFrameListDepth;
  wf_queue_size : length (mZslQueue st) = kZslBufferDepth;
  wf_frames_size : length (mFrameList st) = kFrameListDepth;
  wf_queue_head : mZslQueueHead st < kZslBufferDepth;
  wf_queue_tail : mZslQueueTail st < kZslBufferDepth;
  wf_frames_head : mFrameListHead st < kFrameListDepth
}.

End Operations.

(** ** Notions used in the statements *)

(** The capture timestamp of a record, when it has one. *)
Definition timestamp_of (m : CameraMetadata.t) : option Z :=
  CameraMetadata.data_i64 (CameraMetadata.find ANDROID_SENSOR_TIMESTAMP m) !! 0.

(** The records present in a list of metadata: the ones that are not
    empty, with their multiplicity. *)
Definition records (l : list CameraMetadata.t) : list CameraMetadata.t :=
  filter (λ m, CameraMetadata.isEmpty m = false) l.

(** The records a processor owns: those of the pair slots, then those of
    the history. *)
Definition owned_records (st : ZslProcessor) : list CameraMetadata.t :=
  records (frame <$> mZslQueue st) ++ records (mFrameList st).

(** A record that carries the capture timestamp [t] and nothing else. *)
Definition metadata_at (t : nsecs_t) : CameraMetadata.t :=
  [(ANDROID_SENSOR_TIMESTAMP, [t])].

(** The ring holds the buffers [w], oldest first, from [mZslQueueTail] up to
    [mZslQueueHead], and every other slot holds the default item. *)
Definition ring_holds (depth : nat) (st : ZslProcessor) (w : list BufferItem)
  : Prop :=
  length w < depth
  ∧ mZslQueueHead st = rotate_nat_add (mZslQueueTail st) (length w) depth
  ∧ rotate (mZslQueueTail st) (buffer <$> mZslQueue st)
    = w ++ replicate (depth - length w) BufferItem_default.

(** ** Data for the examples *)

Definition item (handle : Z) (t : nsecs_t) : BufferItem :=
  {| mGraphicBuffer := Some handle; mTimestamp := t |}.

Definition source (items : list BufferItem) : BufferItemConsumer :=
  {| queuedItems := items; releasedItems := [] |}.

(** The producer queues one more buffer at the source. *)
Definition queueBuffer (b : BufferItem) (st : ZslProcessor) : ZslProcessor :=
  set_mZslConsumer
    {| queuedItems := queuedItems (mZslConsumer st) ++ [b];
       releasedItems := releasedItems (mZslConsumer st) |} st.

(** A device that accepts every call, and a client on top of it. *)
Definition accepting_device : Camera2Device :=
  {| pushReprocessBuffer := λ _ _, OK; capture := λ _, OK |}.

Definition accepting_client : Camera2Client :=
  {| getCaptureStreamId := 2%Z; getCameraDevice := accepting_device |}.

(** A record with timestamp 0 arrives, then a buffer with timestamp 0, in a
    processor of depths 3 and 6. *)
Definition zero_timestamp_run : option ZslProcessor :=
  '(st1, _) ← onFrameAvailable 6 0%Z (metadata_at 0%Z)
                (ZslProcessor_new 3 6 (source [item 1%Z 0%Z]));
  '(_, st2) ← processNewZslBuffer 3 2%Z accepting_client OK st1;
  Some st2.

(** A record and its buffer arrive and pair, the pair is sent for
    reprocessing: the processor is LOCKED (depths 3 and 6). *)
Definition locked_run : option ZslProcessor :=
  '(st1, _) ← onFrameAvailable 6 0%Z (metadata_at 100000000%Z)
                (ZslProcessor_new 3 6 (source [item 1%Z 100000000%Z]));
  '(_, st2) ← processNewZslBuffer 3 2%Z accepting_client OK st1;
  '(_, st3, _) ← pushToReprocess 3 7%Z (Some accepting_client) (λ _, OK) st2;
  Some st3.

(** Three buffers 100 ms apart; the records of the first and of the third
    arrive, the one of the second does not (depths 4 and 8). *)
Definition three_slots_run : option ZslProcessor :=
  '(st1, _) ← onFrameAvailable 8 0%Z (metadata_at 100000000%Z)
                (ZslProcessor_new 4 8 (source []));
  '(_, st2) ← processNewZslBuffer 4 2%Z accepting_client OK
                (queueBuffer (item 11%Z 100000000%Z) st1);
  '(_, st3) ← processNewZslBuffer 4 2%Z accepting_client OK
                (queueBuffer (item 12%Z 200000000%Z) st2);
  '(st4, _) ← onFrameAvailable 8 0%Z (metadata_at 300000000%Z) st3;
  '(_, st5) ← processNewZslBuffer 4 2%Z accepting_client OK
                (queueBuffer (item 13%Z 300000000%Z) st4);
  Some st5.

(** A record with timestamp 5 s arrives, then a buffer whose timestamp is
    later by 2^32 ns, about 4.29 s (depths 4 and 8). *)
Definition truncated_delta_run : option ZslProcessor :=
  '(st1, _) ← onFrameAvailable 8 0%Z (metadata_at 5000000000%Z)
                (ZslProcessor_new 4 8 (source [item 1%Z 9294967296%Z]));
  '(_, st2) ← processNewZslBuffer 4 2%Z accepting_client OK st1;
  Some st2.

(** ** The eviction policy, abstractly

    The ring as a first-in first-out window of at most [cap] buffers,
    oldest first, next to the list of the buffers given back: a new buffer
    goes to the end, and when the window is full its oldest buffer is given
    back first. *)
Definition fifo_admit (cap : nat) (s : list BufferItem * list BufferItem)
    (b : BufferItem) : list BufferItem * list BufferItem :=
  let '(w, released) := s in
  if decide (length w = cap) then (tail w ++ [b], released ++ take 1 w)
  else (w ++ [b], released).

(** ** Data for the examples, continued *)

(** Four buffers 100 ms apart delivered to a new processor of depths 3 and
    6, and the worker's loop run on them. *)
Definition four_buffers : list BufferItem :=
  [item 1%Z 100000000%Z; item 2%Z 200000000%Z;
   item 3%Z 300000000%Z; item 4%Z 400000000%Z].

Definition four_buffers_run : option (bool * ZslProcessor) :=
  drain 3 2%Z (replicate 5 (regular accepting_client))
    (ZslProcessor_new 3 6 (source four_buffers)).

(** ** Sequences of calls

    What can happen to a processor, one call at a time: the entry points of
    the class, and the producer queueing a buffer at the source.  A step of
    the worker is one call of [processNewZslBuffer], with the error that
    the consumer reports to it, [OK] when it reports none. *)
Inductive Event :=
  | MetadataArrives (frameId : Z) (frame : CameraMetadata.t)
  | BufferQueued (b : BufferItem)
  | BufferSignal
  | WorkerStep (client : Camera2Client) (err : status_t)
  | Reprocess (requestId : Z) (client : option Camera2Client)
      (updateRes : Tag → status_t)
  | BufferReleased (handle : option Z).

Section Runs.

Variable kZslBufferDepth : nat.
Variable kFrameListDepth : nat.
Variable NO_BUFFER_AVAILABLE : status_t.

(** One call; [None] when the call faults. *)
Definition step (e : Event) (st : ZslProcessor) : option ZslProcessor :=
  match e with
  | MetadataArrives frameId frame =>
      fst <$> onFrameAvailable kFrameListDepth frameId frame st
  | BufferQueued b => Some (queueBuffer b st)
  | BufferSignal => Some (onFrameAvailable_signal st)
  | WorkerStep client err =>
      snd <$>
        processNewZslBuffer kZslBufferDepth NO_BUFFER_AVAILABLE client err st
  | Reprocess requestId client updateRes =>
      (λ r, r.1.2) <$>
        pushToReprocess kZslBufferDepth requestId client updateRes st
  | BufferReleased handle => fst <$> onBufferReleased handle st
  end.

Fixpoint run (es : list Event) (st : ZslProcessor) : option ZslProcessor :=
  match es with
  | [] => Some st
  | e :: es' => st' ← step e st; run es' st'
  end.

End Runs.

(** The record of a metadata arrival carries a timestamp. *)
Definition timestamped (e : Event) : Prop :=
  match e with
  | MetadataArrives _ frame => is_Some (timestamp_of frame)
  | _ => True
  end.

(** The records that arrive, and the buffers that are queued, in order. *)
Definition arrived (es : list Event) : list CameraMetadata.t :=
  es ≫= λ e, match e with MetadataArrives _ frame => [frame] | _ => [] end.

Definition queued (es : list Event) : list BufferItem :=
  es ≫= λ e, match e with BufferQueued b => [b] | _ => [] end.

(** The slot holds nothing, a buffer alone, or a buffer with a timestamp
    other than 0 and a record whose timestamp passes the test of the
    correlator against it. *)
Definition slot_ok (p : ZslPair) : Prop :=
  CameraMetadata.isEmpty (frame p) = false →
  mTimestamp (buffer p) ≠ 0%Z
  ∧ ∃ t, timestamp_of (frame p) = Some t
         ∧ timestampsMatch (mTimestamp (buffer p)) t = true.

(** Two processors with the same rings, cursors and source: they differ at
    most in the state and in the flag of the signal. *)
Definition same_core (st' st : ZslProcessor) : Prop :=
  mZslQueue st' = mZslQueue st
  ∧ mZslQueueHead st' = mZslQueueHead st
  ∧ mZslQueueTail st' = mZslQueueTail st
  ∧ mFrameList st' = mFrameList st
  ∧ mFrameListHead st' = mFrameListHead st
  ∧ mZslConsumer st' = mZslConsumer st.

(** A sequence of calls for the examples: a record and its buffer arrive
    and pair, the pair is sent for reprocessing, two buffers come while
    LOCKED (with one acquisition that fails in between), the buffer is
    released, one more buffer comes. *)
Definition example_events : list Event :=
  [MetadataArrives 0%Z (metadata_at 100000000%Z);
   BufferQueued (item 1%Z 100000000%Z); BufferSignal;
   WorkerStep accepting_client OK;
   Reprocess 7%Z (Some accepting_client) (λ _, OK);
   BufferQueued (item 2%Z 200000000%Z); BufferQueued (item 3%Z 300000000%Z);
   WorkerStep accepting_client OK; WorkerStep accepting_client BAD_VALUE;
   WorkerStep accepting_client OK;
   MetadataArrives 0%Z (metadata_at 300000000%Z);
   BufferReleased (Some 1%Z);
   BufferQueued (item 4%Z 400000000%Z); WorkerStep accepting_client OK;
   MetadataArrives 0%Z (metadata_at 400000000%Z)].

(** [g] is [f] with some of its records emptied. *)
Definition thinned (g f : list CameraMetadata.t) : Prop :=
  Forall2 (λ a b, a = CameraMetadata.empty ∨ a = b) g f.

(** Lines 251-261 when every update succeeds: the request built from the
    record [f] of the slot that was selected. *)
Definition reprocess_request (requestId reprocessStreamId captureStreamId : Z)
    (f : CameraMetadata.t) : CameraMetadata.t :=
  CameraMetadata.set_entry ANDROID_REQUEST_ID [requestId]
    (CameraMetadata.set_entry ANDROID_REQUEST_OUTPUT_STREAMS
       [to_uint8 captureStreamId]
       (CameraMetadata.set_entry ANDROID_REQUEST_INPUT_STREAMS
          [to_uint8 reprocessStreamId]
          (CameraMetadata.set_entry ANDROID_REQUEST_TYPE
             [ANDROID_REQUEST_TYPE_REPROCESS] f))).

(** A ring of depth 4 whose tail slot holds a buffer alone and whose next
    slot holds a complete pair. *)
Definition second_slot_complete : ZslProcessor :=
  set_queue
    [{| buffer := item 11%Z 100000000%Z; frame := CameraMetadata.empty |};
     {| buffer := item 12%Z 200000000%Z; frame := metadata_at 200000000%Z |};
     ZslPair_default; ZslPair_default] 2 0
    (ZslProcessor_new 4 8 (source [])).

(** ** The streams: [updateStream] and [deleteStream]

    The two stream ids and the consumer of the processor, next to the
    rings.  The device is declared outside the source file; it is taken as
    a parameter: the status of each of its calls and, for the calls with an
    output argument, the value written to it, if any. *)

Definition to_uint32 (z : Z) : Z := (z mod 2 ^ 32)%Z.

Record StreamDevice := {
  device_getStreamInfo : Z → status_t * Z * Z;
  device_deleteReprocessStream : Z → status_t;
  device_deleteStream : Z → status_t;
  device_createStream : Z → Z → status_t * option Z;
  device_createReprocessStreamFromStream : Z → status_t * option Z
}.

Inductive StreamCall :=
  | GetStreamInfo (id : Z)
  | DeleteReprocessStream (id : Z)
  | DeleteStream (id : Z)
  | CreateStream (width height : Z)
  | CreateReprocessStreamFromStream (id : Z)
  | RegisterFrameListener.

(** [params.fastInfo.arrayWidth] and [params.fastInfo.arrayHeight]. *)
Record Parameters := { arrayWidth : Z; arrayHeight : Z }.

(** [hasConsumer] tells whether [mZslConsumer] (and with it [mZslWindow])
    is set. *)
Record ZslStreams := {
  processor : ZslProcessor;
  mZslStreamId : Z;
  hasConsumer : bool
}.

Definition set_mZslReprocessStreamId (id : Z) (st : ZslProcessor)
  : ZslProcessor :=
  {| mState := mState st;
     mZslBufferAvailable := mZslBufferAvailable st;
     mZslReprocessStreamId := id;
     mZslConsumer := mZslConsumer st;
     mFrameList := mFrameList st;
     mFrameListHead := mFrameListHead st;
     mZslQueue := mZslQueue st;
     mZslQueueHead := mZslQueueHead st;
     mZslQueueTail := mZslQueueTail st |}.

(** The value written to an output argument, when one is written. *)
Definition written (out : option Z) (old : Z) : Z := default old out.

Definition getStreamId (s : ZslStreams) : Z := mZslStreamId s.

Definition getReprocessStreamId (s : ZslStreams) : Z :=
  mZslReprocessStreamId (processor s).

(** Lines 124-153: the stream exists; it is deleted when its size is not
    the one asked for. *)
Definition checkStream (params : Parameters) (device : StreamDevice)
    (s : ZslStreams) : status_t * ZslStreams * list StreamCall :=
  if decide (mZslStreamId s ≠ NO_STREAM) then
    let '(res, currentWidth, currentHeight) :=
      device_getStreamInfo device (mZslStreamId s) in
    let calls := [GetStreamInfo (mZslStreamId s)] in
    if decide (res ≠ OK) then (res, s, calls)
    else if decide (currentWidth ≠ to_uint32 (arrayWidth params)
                    ∨ currentHeight ≠ to_uint32 (arrayHeight params)) then
      let reprocessId := mZslReprocessStreamId (processor s) in
      let res := device_deleteReprocessStream device reprocessId in
      let calls := calls ++ [DeleteReprocessStream reprocessId] in
      if decide (res ≠ OK) then (res, s, calls)
      else
        let res := device_deleteStream device (mZslStreamId s) in
        let calls := calls ++ [DeleteStream (mZslStreamId s)] in
        if decide (res ≠ OK) then (res, s, calls)
        else
          (OK,
           {| processor := processor s; mZslStreamId := NO_STREAM;
              hasConsumer := hasConsumer s |},
           calls)
    else (OK, s, calls)
  else (OK, s, []).

(** Lines 155-176: there is no stream; both streams are created. *)
Definition createStreams (params : Parameters) (device : StreamDevice)
    (s : ZslStreams) : status_t * ZslStreams * list StreamCall :=
  if decide (mZslStreamId s = NO_STREAM) then
    let '(res, id) :=
      device_createStream device (arrayWidth params) (arrayHeight params) in
    let s :=
      {| processor := processor s;
         mZslStreamId := written id (mZslStreamId s);
         hasConsumer := hasConsumer s |} in
    let calls := [CreateStream (arrayWidth params) (arrayHeight params)] in
    if decide (res ≠ OK) then (res, s, calls)
    else
      let '(res, reprocessId) :=
        device_createReprocessStreamFromStream device (mZslStreamId s) in
      let s :=
        {| processor :=
             set_mZslReprocessStreamId
               (written reprocessId (mZslReprocessStreamId (processor s)))
               (processor s);
           mZslStreamId := mZslStreamId s;
           hasConsumer := hasConsumer s |} in
      let calls := calls ++ [CreateReprocessStreamFromStream (mZslStreamId s)] in
      if decide (res ≠ OK) then (res, s, calls) else (OK, s, calls)
  else (OK, s, []).

(** [client] is the device of the client when [mClient.promote()] gives
    one.  The result is the status, the streams afterwards and the calls
    made. *)
Definition updateStream (params : Parameters) (client : option StreamDevice)
    (s : ZslStreams) : status_t * ZslStreams * list StreamCall :=
  match client with
  | None => (OK, s, [])
  | Some device =>
      let s :=
        if hasConsumer s then s
        else
          {| processor := set_mZslConsumer (source []) (processor s);
             mZslStreamId := mZslStreamId s;
             hasConsumer := true |} in
      let '(res, s, calls) := checkStream params device s in
      if decide (res ≠ OK) then (res, s, calls)
      else
        let '(res, s, calls') := createStreams params device s in
        if decide (res ≠ OK) then (res, s, calls ++ calls')
        else (OK, s, calls ++ calls' ++ [RegisterFrameListener])
  end.

Definition deleteStream (client : option StreamDevice) (s : ZslStreams)
  : status_t * ZslStreams * list StreamCall :=
  if decide (mZslStreamId s ≠ NO_STREAM) then
    match client with
    | None => (OK, s, [])
    | Some device =>
        let reprocessId := mZslReprocessStreamId (processor s) in
        let res := device_deleteReprocessStream device reprocessId in
        let calls := [DeleteReprocessStream reprocessId] in
        if decide (res ≠ OK) then (res, s, calls)
        else
          let s :=
            {| processor := set_mZslReprocessStreamId NO_STREAM (processor s);
               mZslStreamId := mZslStreamId s;
               hasConsumer := hasConsumer s |} in
          let res := device_deleteStream device (mZslStreamId s) in
          let calls := calls ++ [DeleteStream (mZslStreamId s)] in
          if decide (res ≠ OK) then (res, s, calls)
          else
            (OK,
             {| processor := processor s; mZslStreamId := NO_STREAM;
                hasConsumer := false |},
             calls)
    end
  else (OK, s, []).

(** A device that creates stream 5 and its reprocess stream 6 whatever the
    size, and reports the size 640 x 480 for every stream. *)
Definition vga_device : StreamDevice :=
  {| device_getStreamInfo := λ _, (OK, 640%Z, 480%Z);
     device_deleteReprocessStream := λ _, OK;
     device_deleteStream := λ _, OK;
     device_createStream := λ _ _, (OK, Some 5%Z);
     device_createReprocessStreamFromStream := λ _, (OK, Some 6%Z) |}.

Definition no_streams : ZslStreams :=
  {| processor := ZslProcessor_new 3 6 (source []);
     mZslStreamId := NO_STREAM;
     hasConsumer := false |}.

(** A device like [vga_device] that refuses to delete or to create an
    output stream. *)
Definition stubborn_device : StreamDevice :=
  {| device_getStreamInfo := λ _, (OK, 640%Z, 480%Z);
     device_deleteReprocessStream := λ _, OK;
     device_deleteStream := λ _, INVALID_OPERATION;
     device_createStream := λ _ _, (INVALID_OPERATION, None);
     device_createReprocessStreamFromStream := λ _, (OK, Some 6%Z) |}.

(** A device that deletes what it is asked to but creates nothing. *)
Definition exhausted_device : StreamDevice :=
  {| device_getStreamInfo := λ _, (OK, 640%Z, 480%Z);
     device_deleteReprocessStream := λ _, OK;
     device_deleteStream := λ _, OK;
     device_createStream := λ _ _, (INVALID_OPERATION, None);
     device_createReprocessStreamFromStream := λ _, (OK, Some 6%Z) |}.

(** Streams 5 and 6 of size 640 x 480, as [vga_device] creates them. *)
Definition vga_streams : ZslStreams :=
  (updateStream {| arrayWidth := 640; arrayHeight := 480 |}
     (Some vga_device) no_streams).1.2.

(** * Properties *)

(** ** Arithmetic on timestamps *)

Lemma wrap64_small (z : Z) :
  (- 2 ^ 63 ≤ z < 2 ^ 63)%Z → wrap64 z = z.
Proof. intros Hz. unfold wrap64. rewrite Z.mod_small; lia. Qed.

Lemma to_int32_small (z : Z) :
  (- 2 ^ 31 ≤ z < 2 ^ 31)%Z → to_int32 z = z.
Proof. intros Hz. unfold to_int32. rewrite Z.mod_small; lia. Qed.

Lemma to_int32_add_mul (z k : Z) : to_int32 (z + k * 2 ^ 32) = to_int32 z.
Proof.
  unfold to_int32.
  replace (z + k * 2 ^ 32 + 2 ^ 31)%Z with (z + 2 ^ 31 + k * 2 ^ 32)%Z by lia.
  by rewrite Z.mod_add.
Qed.

(** The conversion to [int] does not see the wrap-around of the 64-bit
    subtraction. *)
Lemma to_int32_wrap64 (z : Z) : to_int32 (wrap64 z) = to_int32 z.
Proof.
  unfold wrap64. rewrite Z.mod_eq by lia.
  replace (z + 2 ^ 63 - 2 ^ 64 * ((z + 2 ^ 63) / 2 ^ 64) - 2 ^ 63)%Z
    with (z + (- 2 ^ 32 * ((z + 2 ^ 63) / 2 ^ 64)) * 2 ^ 32)%Z by lia.
  apply to_int32_add_mul.
Qed.

Lemma abs_small (j : Z) : (- 2 ^ 31 < j < 2 ^ 31)%Z → abs j = Z.abs j.
Proof. intros Hj. unfold abs. apply to_int32_small. lia. Qed.

(** The test that the code makes: on the difference as an [int]. *)
Lemma timestampsMatch_spec (t_b t_m : Z) :
  timestampsMatch t_b t_m = true
  ↔ t_b = t_m ∨ (abs (to_int32 (t_b - t_m)) < 1000000)%Z.
Proof.
  unfold timestampsMatch, sub64. rewrite to_int32_wrap64.
  case_decide as Heq; [by split; [left|]|].
  rewrite bool_decide_eq_true. split; [by right|]. by intros [?|?].
Qed.

(** Timestamps less than 2^31 ns apart, about 2.1 s: the test is the one on
    the distance of the two. *)
Lemma timestampsMatch_near (t_b t_m : Z) :
  (- 2 ^ 31 < t_b - t_m < 2 ^ 31)%Z →
  timestampsMatch t_b t_m = true
  ↔ t_b = t_m ∨ (Z.abs (t_b - t_m) < 1000000)%Z.
Proof.
  intros Hnear. rewrite timestampsMatch_spec.
  rewrite to_int32_small by lia. by rewrite abs_small by lia.
Qed.

(** Timestamps whose distance is within 1 ms of a multiple of 2^32 ns pass
    the test, however far apart they are. *)
Lemma timestampsMatch_truncated (t_b t_m k r : Z) :
  (t_b - t_m = k * 2 ^ 32 + r)%Z →
  (- 1000000 < r < 1000000)%Z →
  timestampsMatch t_b t_m = true.
Proof.
  intros Hdelta Hr. apply timestampsMatch_spec. right.
  rewrite Hdelta, Z.add_comm, to_int32_add_mul.
  rewrite to_int32_small by lia. rewrite abs_small by lia. lia.
Qed.

Example delta_999999_matches :
  timestampsMatch 5000999999%Z 5000000000%Z = true.
Proof. reflexivity. Qed.

Example delta_1000000_does_not_match :
  timestampsMatch 5001000000%Z 5000000000%Z = false.
Proof. reflexivity. Qed.

(** A distance of 2^32 ns, about 4.29 s, is 0 as an [int]. *)
Example delta_2_32_matches :
  timestampsMatch 9294967296%Z 5000000000%Z = true.
Proof. reflexivity. Qed.

(** With the wrap-around of 64-bit arithmetic the two ends of the range are
    one apart. *)
Example extreme_timestamps_wrap :
  timestampsMatch (2 ^ 63 - 1)%Z (- 2 ^ 63)%Z = true.
Proof. reflexivity. Qed.

(** ** Metadata records *)

Lemma find_count tag m :
  CameraMetadata.count (CameraMetadata.find tag m)
  = length (CameraMetadata.data_i64 (CameraMetadata.find tag m)).
Proof.
  induction m as [|[tg d] m IH]; simpl; [done|]. by case_decide.
Qed.

Lemma timestamp_of_Some_count m t :
  timestamp_of m = Some t →
  CameraMetadata.count (CameraMetadata.find ANDROID_SENSOR_TIMESTAMP m) ≠ 0.
Proof.
  unfold timestamp_of. rewrite find_count.
  destruct (CameraMetadata.data_i64 _); simpl; [done|lia].
Qed.

Lemma timestamp_of_Some_nonempty m t :
  timestamp_of m = Some t → CameraMetadata.isEmpty m = false.
Proof. by destruct m. Qed.

Lemma missing_timestamp_None m :
  CameraMetadata.count (CameraMetadata.find ANDROID_SENSOR_TIMESTAMP m) = 0 →
  timestamp_of m = None.
Proof.
  unfold timestamp_of. rewrite find_count.
  by destruct (CameraMetadata.data_i64 _).
Qed.

Lemma frameMatches_timestamp t_b m t_m :
  timestamp_of m = Some t_m → frameMatches t_b m = timestampsMatch t_b t_m.
Proof.
  intros Hts. unfold frameMatches.
  rewrite (timestamp_of_Some_nonempty _ _ Hts).
  pose proof (timestamp_of_Some_count _ _ Hts).
  case_decide; [done|]. unfold timestamp_of in Hts. by rewrite Hts.
Qed.

Lemma frameMatches_has_timestamp t_b m :
  frameMatches t_b m = true →
  CameraMetadata.isEmpty m = false
  ∧ ∃ t_m, timestamp_of m = Some t_m ∧ timestampsMatch t_b t_m = true.
Proof.
  unfold frameMatches, timestamp_of.
  destruct (CameraMetadata.isEmpty m); [done|].
  case_decide; [done|].
  destruct (CameraMetadata.data_i64 _ !! 0) as [t|]; [|done]. eauto.
Qed.

Lemma frameMatches_empty t_b : frameMatches t_b CameraMetadata.empty = false.
Proof. reflexivity. Qed.

(** ** The scan of the history *)

Lemma scanFrameList_Some t_b frames m frames' :
  scanFrameList t_b frames = Some (m, frames') →
  ∃ j, frames !! j = Some m
       ∧ frameMatches t_b m = true
       ∧ frames' = <[j := CameraMetadata.empty]> frames
       ∧ ∀ k m', k < j → frames !! k = Some m' → frameMatches t_b m' = false.
Proof.
  revert m frames'. induction frames as [|fr rest IH]; intros m frames'; simpl.
  { done. }
  destruct (frameMatches t_b fr) eqn:Hfr.
  - intros [= <- <-]. exists 0. repeat split; [done|]. intros; lia.
  - destruct (scanFrameList t_b rest) as [[taken rest']|] eqn:Hrest; [|done].
    intros [= <- <-]. destruct (IH _ _ eq_refl) as (j & Hj & Hm & -> & Hbefore).
    exists (S j). repeat split; [done..|].
    intros [|k] m' Hk; simpl; [by intros [= <-]|].
    apply Hbefore. lia.
Qed.

Lemma scanFrameList_None t_b frames :
  scanFrameList t_b frames = None
  ↔ Forall (λ m, frameMatches t_b m = false) frames.
Proof.
  induction frames as [|fr rest IH]; simpl; [by split|].
  destruct (frameMatches t_b fr) eqn:Hfr.
  - split; [done|]. intros [Hfr' _]%Forall_cons_1. congruence.
  - destruct (scanFrameList t_b rest) as [[??]|].
    + split; [done|]. intros [_ Hrest]%Forall_cons_1. by apply IH in Hrest.
    + split; [|done]. intros _. constructor; [done|by apply IH].
Qed.

Lemma scanFrameList_first t_b frames j m :
  frames !! j = Some m →
  frameMatches t_b m = true →
  (∀ k m', k < j → frames !! k = Some m' → frameMatches t_b m' = false) →
  scanFrameList t_b frames = Some (m, <[j := CameraMetadata.empty]> frames).
Proof.
  revert j. induction frames as [|fr rest IH]; intros [|j]; simpl; try done.
  - intros [= ->] -> _. done.
  - intros Hj Hm Hbefore.
    rewrite (Hbefore 0 fr) by (done || lia).
    rewrite (IH j); [done..|].
    intros k m' ? ?. apply (Hbefore (S k)); [lia|done].
Qed.

Lemma length_scanFrameList t_b frames m frames' :
  scanFrameList t_b frames = Some (m, frames') → length frames' = length frames.
Proof.
  intros (j & _ & _ & -> & _)%scanFrameList_Some. by rewrite length_insert.
Qed.

Lemma records_scanFrameList t_b frames m frames' :
  scanFrameList t_b frames = Some (m, frames') →
  records frames ≡ₚ m :: records frames'.
Proof.
  revert m frames'. induction frames as [|fr rest IH]; intros m frames'; simpl.
  { done. }
  unfold records in *. destruct (frameMatches t_b fr) eqn:Hfr.
  - intros [= <- <-]. apply frameMatches_has_timestamp in Hfr as [Hne _].
    rewrite filter_cons_True by done.
    by rewrite (filter_cons_False _ CameraMetadata.empty).
  - destruct (scanFrameList t_b rest) as [[taken rest']|] eqn:Hrest; [|done].
    intros [= <- <-]. specialize (IH _ _ eq_refl).
    rewrite !filter_cons. case_decide; [|done].
    rewrite IH. apply Permutation_swap.
Qed.

(** ** The loop over the pair slots *)

Lemma matchEntry_not_seeking p frames :
  seeking p = false → matchEntry p frames = (p, frames).
Proof. intros Hp. unfold matchEntry. by rewrite Hp. Qed.

Lemma matchEntry_buffer p frames :
  buffer (matchEntry p frames).1 = buffer p.
Proof.
  unfold matchEntry. destruct (seeking p); [|done].
  by destruct (scanFrameList _ _) as [[??]|].
Qed.

Lemma matchEntry_length p frames :
  length (matchEntry p frames).2 = length frames.
Proof.
  unfold matchEntry. destruct (seeking p); [|done].
  destruct (scanFrameList _ _) as [[??]|] eqn:Hscan; [|done].
  by apply length_scanFrameList in Hscan.
Qed.

Lemma matchEntry_records p frames :
  records (frame (matchEntry p frames).1 :: (matchEntry p frames).2)
  ≡ₚ records (frame p :: frames).
Proof.
  unfold matchEntry. destruct (seeking p) eqn:Hp; [|done].
  destruct (scanFrameList _ _) as [[m frames']|] eqn:Hscan; [|done].
  pose proof (scanFrameList_Some _ _ _ _ Hscan) as (j & _ & Hm & _).
  apply frameMatches_has_timestamp in Hm as [Hne _].
  apply records_scanFrameList in Hscan.
  apply andb_prop in Hp as [Hp _]. unfold records in *. simpl.
  rewrite filter_cons_True by done. rewrite filter_cons_False by congruence.
  by rewrite Hscan.
Qed.

Lemma matchQueue_app pre post frames :
  matchQueue (pre ++ post) frames
  = let '(pre', frames') := matchQueue pre frames in
    let '(post', frames'') := matchQueue post frames' in
    (pre' ++ post', frames'').
Proof.
  revert frames. induction pre as [|p pre IH]; intros frames; simpl.
  { by destruct (matchQueue post frames). }
  destruct (matchEntry p frames) as [p' frames1].
  rewrite IH. destruct (matchQueue pre frames1) as [pre' frames2].
  by destruct (matchQueue post frames2).
Qed.

Lemma matchQueue_not_seeking queue frames :
  Forall (λ p, seeking p = false) queue →
  matchQueue queue frames = (queue, frames).
Proof.
  induction 1 as [|p queue Hp _ IH]; simpl; [done|].
  by rewrite matchEntry_not_seeking, IH.
Qed.

Lemma matchQueue_buffers queue frames :
  buffer <$> (matchQueue queue frames).1 = buffer <$> queue.
Proof.
  revert frames. induction queue as [|p queue IH]; intros frames; csimpl.
  { done. }
  pose proof (matchEntry_buffer p frames) as Hb.
  destruct (matchEntry p frames) as [p' frames1].
  specialize (IH frames1). destruct (matchQueue queue frames1); csimpl in *.
  by rewrite Hb, IH.
Qed.

Lemma matchQueue_lengths queue frames :
  length (matchQueue queue frames).1 = length queue
  ∧ length (matchQueue queue frames).2 = length frames.
Proof.
  revert frames. induction queue as [|p queue IH]; intros frames; csimpl.
  { done. }
  pose proof (matchEntry_length p frames) as Hl.
  destruct (matchEntry p frames) as [p' frames1].
  specialize (IH frames1). destruct (matchQueue queue frames1); csimpl in *.
  destruct IH as [-> ->]. by rewrite Hl.
Qed.

Lemma matchQueue_records queue frames :
  records (frame <$> (matchQueue queue frames).1)
    ++ records (matchQueue queue frames).2
  ≡ₚ records (frame <$> queue) ++ records frames.
Proof.
  revert frames. induction queue as [|p queue IH]; intros frames; csimpl.
  { done. }
  pose proof (matchEntry_records p frames) as Hp.
  destruct (matchEntry p frames) as [p' frames1].
  specialize (IH frames1). destruct (matchQueue queue frames1) as [q' frames2].
  csimpl in *. unfold records in *. rewrite !filter_cons in *.
  destruct (decide (CameraMetadata.isEmpty (frame p') = false)),
    (decide (CameraMetadata.isEmpty (frame p) = false)); csimpl in *.
  - rewrite IH. rewrite !(Permutation_middle _ (filter _ _)). by rewrite Hp.
  - rewrite IH. rewrite (Permutation_middle _ (filter _ frames1)). by rewrite Hp.
  - rewrite IH. rewrite (Permutation_middle _ (filter _ frames)).
    by rewrite <-Hp.
  - by rewrite IH, Hp.
Qed.

Lemma findMatchesLocked_queue st :
  mZslQueue (findMatchesLocked st)
  = (matchQueue (mZslQueue st) (mFrameList st)).1.
Proof. unfold findMatchesLocked. by destruct (matchQueue _ _). Qed.

Lemma findMatchesLocked_frames st :
  mFrameList (findMatchesLocked st)
  = (matchQueue (mZslQueue st) (mFrameList st)).2.
Proof. unfold findMatchesLocked. by destruct (matchQueue _ _). Qed.

Lemma findMatchesLocked_others st :
  mState (findMatchesLocked st) = mState st
  ∧ mZslConsumer (findMatchesLocked st) = mZslConsumer st
  ∧ mZslQueueHead (findMatchesLocked st) = mZslQueueHead st
  ∧ mZslQueueTail (findMatchesLocked st) = mZslQueueTail st
  ∧ mFrameListHead (findMatchesLocked st) = mFrameListHead st
  ∧ mZslReprocessStreamId (findMatchesLocked st) = mZslReprocessStreamId st
  ∧ mZslBufferAvailable (findMatchesLocked st) = mZslBufferAvailable st.
Proof. unfold findMatchesLocked. by destruct (matchQueue _ _). Qed.

Lemma findMatchesLocked_buffers st :
  buffer <$> mZslQueue (findMatchesLocked st) = buffer <$> mZslQueue st.
Proof. rewrite findMatchesLocked_queue. apply matchQueue_buffers. Qed.

Lemma findMatchesLocked_wf Q F st :
  wf Q F st → wf Q F (findMatchesLocked st).
Proof.
  intros [].
  destruct (findMatchesLocked_others st) as (_ & _ & Hh & Ht & Hf & _).
  destruct (matchQueue_lengths (mZslQueue st) (mFrameList st)) as [Hq Hl].
  split; rewrite ?findMatchesLocked_queue, ?findMatchesLocked_frames, ?Hh, ?Ht,
    ?Hf, ?Hq, ?Hl; done.
Qed.

Lemma matchQueue_lookup queue frames i pair :
  queue !! i = Some pair →
  (∀ k p, k < i → queue !! k = Some p → seeking p = false) →
  (matchQueue queue frames).1 !! i = Some (matchEntry pair frames).1.
Proof.
  intros Hi Hbefore.
  rewrite <-(take_drop_middle _ _ _ Hi), matchQueue_app.
  rewrite matchQueue_not_seeking; last first.
  { apply Forall_lookup_2. intros k p [Hk Hlt]%lookup_take_Some. eauto. }
  simpl. destruct (matchEntry pair frames) as [p' frames1].
  destruct (matchQueue (drop (S i) queue) frames1) as [post' frames2]. simpl.
  apply list_lookup_middle. rewrite length_take.
  apply lookup_lt_Some in Hi. lia.
Qed.

(** ** C1: tolerance matching *)

(** Take a slot [i] that holds a buffer with timestamp [t_b] and no
    metadata, no slot before it waiting for metadata, and a record [m] of
    the history with timestamp [t_m] that no record before it in the
    history matches.  The correlator puts [m] into slot [i] if and only if
    [t_b] is not 0 and the two timestamps pass the test of lines
    394-405. *)
Lemma findMatchesLocked_first_candidate (st : ZslProcessor) (i j : nat)
    (pair : ZslPair) (m : CameraMetadata.t) (t_b t_m : nsecs_t) :
  mZslQueue st !! i = Some pair →
  frame pair = CameraMetadata.empty →
  mTimestamp (buffer pair) = t_b →
  (∀ k p, k < i → mZslQueue st !! k = Some p → seeking p = false) →
  mFrameList st !! j = Some m →
  timestamp_of m = Some t_m →
  (∀ k m', k < j → mFrameList st !! k = Some m' → frameMatches t_b m' = false) →
  mZslQueue (findMatchesLocked st) !! i
    = Some {| buffer := buffer pair; frame := m |}
  ↔ t_b ≠ 0%Z ∧ timestampsMatch t_b t_m = true.
Proof.
  intros Hi Hframe Htb Hbefore Hj Htm Hfirst.
  rewrite findMatchesLocked_queue, (matchQueue_lookup _ _ _ _ Hi Hbefore).
  rewrite <-(frameMatches_timestamp t_b m t_m Htm).
  pose proof (timestamp_of_Some_nonempty _ _ Htm) as Hne.
  unfold matchEntry, seeking. rewrite Hframe, Htb. simpl.
  case_bool_decide as Hzero; simpl.
  { split; [|by intros [? _]]. destruct pair as [b f]; simpl in *.
    intros [= Hm]. subst f. by rewrite <-Hm in Hne. }
  destruct (frameMatches t_b m) eqn:Hm.
  - rewrite (scanFrameList_first _ _ _ _ Hj Hm Hfirst). by split.
  - split; [|by intros [_ ?]].
    destruct (scanFrameList t_b (mFrameList st)) as [[m' frames']|] eqn:Hscan.
    + apply scanFrameList_Some in Hscan as (_ & _ & Hm' & _).
      simpl. intros [= ->]. congruence.
    + destruct pair as [b f]; simpl in *.
      intros [= Hf]. subst f. by rewrite <-Hf in Hne.
Qed.

(** The guard of line 380: a timestamp of 0 marks a slot without buffer,
    and such a slot is not given a record, whatever the history holds. *)
Example zero_timestamp_is_no_buffer :
  ∃ st, zero_timestamp_run = Some st
    ∧ mZslQueue st !! 0
      = Some {| buffer := item 1%Z 0%Z; frame := CameraMetadata.empty |}
    ∧ mFrameList st !! 0 = Some (metadata_at 0%Z).
Proof.
  eexists. split; [vm_compute; reflexivity|].
  split; vm_compute; reflexivity.
Qed.

(** C1, the defect.  The difference of the two timestamps is a 64-bit
    value, and [abs] takes an [int]: only the low 32 bits of the difference
    reach the comparison with 1_000_000.  Two timestamps whose distance is
    within 1 ms of a multiple of 2^32 ns therefore pass the test, and the
    correlator pairs them, however far apart they are.  A record with
    timestamp 5_000_000_000 and a buffer with timestamp 9_294_967_296, which
    is 2^32 ns or about 4.29 s later, delivered to a new processor: the
    buffer's slot holds the record afterwards, although the two differ and
    their distance is not below 1_000_000. *)
Theorem findMatchesLocked_pairs_beyond_tolerance :
  (∀ t_b t_m k r : Z,
     (t_b - t_m = k * 2 ^ 32 + r)%Z → (- 1000000 < r < 1000000)%Z →
     timestampsMatch t_b t_m = true)
  ∧ ∃ st, truncated_delta_run = Some st
      ∧ mZslQueue st !! 0
        = Some {| buffer := item 1%Z 9294967296%Z;
                  frame := metadata_at 5000000000%Z |}
      ∧ mFrameList st !! 0 = Some CameraMetadata.empty
      ∧ 9294967296%Z ≠ 5000000000%Z
      ∧ ¬ (Z.abs (9294967296 - 5000000000) < 1000000)%Z.
Proof.
  split; [apply timestampsMatch_truncated|].
  eexists. split; [vm_compute; reflexivity|].
  split; [vm_compute; reflexivity|]. split; [vm_compute; reflexivity|].
  split; lia.
Qed.

(** ** What a pass of the correlator can change *)


Lemma matchEntry_keeps_untimestamped p frames j m :
  frames !! j = Some m → timestamp_of m = None →
  (matchEntry p frames).2 !! j = Some m.
Proof.
  intros Hj Hts. unfold matchEntry. destruct (seeking p); [|done].
  destruct (scanFrameList _ _) as [[m0 frames']|] eqn:Hscan; [|done].
  apply scanFrameList_Some in Hscan as (j0 & Hj0 & Hm0 & -> & _). simpl.
  apply frameMatches_has_timestamp in Hm0 as (_ & t & Ht & _).
  rewrite list_lookup_insert_ne; [done|]. intros ->. congruence.
Qed.

Lemma matchEntry_slot p frames :
  (matchEntry p frames).1 = p
  ∨ seeking p = true
    ∧ buffer (matchEntry p frames).1 = buffer p
    ∧ ∃ j t, frames !! j = Some (frame (matchEntry p frames).1)
        ∧ timestamp_of (frame (matchEntry p frames).1) = Some t
        ∧ timestampsMatch (mTimestamp (buffer p)) t = true.
Proof.
  unfold matchEntry. destruct (seeking p); [|by left].
  destruct (scanFrameList _ _) as [[m frames']|] eqn:Hscan; [|by left].
  apply scanFrameList_Some in Hscan as (j & Hj & Hm & _).
  apply frameMatches_has_timestamp in Hm as (_ & t & Ht & Hmatch).
  right. simpl. eauto 10.
Qed.


Lemma matchQueue_keeps_untimestamped queue frames j m :
  frames !! j = Some m → timestamp_of m = None →
  (matchQueue queue frames).2 !! j = Some m.
Proof.
  revert frames. induction queue as [|p queue IH]; intros frames; simpl.
  { done. }
  intros Hj Hts.
  pose proof (matchEntry_keeps_untimestamped p frames j m Hj Hts) as Hp.
  destruct (matchEntry p frames) as [p' frames1].
  specialize (IH frames1). destruct (matchQueue queue frames1); simpl in *.
  by apply IH.
Qed.

(** The slot [i] after a pass: unchanged, or it was waiting and now holds a
    record with a timestamp that matches the one of its buffer. *)
Lemma matchQueue_slot queue frames i p' :
  (matchQueue queue frames).1 !! i = Some p' →
  queue !! i = Some p'
  ∨ ∃ p t, queue !! i = Some p ∧ seeking p = true ∧ buffer p' = buffer p
      ∧ timestamp_of (frame p') = Some t
      ∧ timestampsMatch (mTimestamp (buffer p)) t = true.
Proof.
  revert frames i. induction queue as [|p queue IH]; intros frames i; simpl.
  { done. }
  pose proof (matchEntry_slot p frames) as Hp.
  destruct (matchEntry p frames) as [p1 frames1].
  specialize (IH frames1). destruct (matchQueue queue frames1); simpl in *.
  destruct i as [|i]; simpl; [|by apply IH].
  intros [= <-]. destruct Hp as [->|(? & ? & j & t & _ & ? & ?)]; [by left|].
  right. eauto 10.
Qed.

(** ** C8: a record matches at most one buffer *)


(** Two buffers with the same timestamp and one record: the first slot takes
    the record, the second stays without metadata, also on a later pass. *)
Example one_record_two_buffers :
  let st :=
    set_frames [metadata_at 5000000000%Z; CameraMetadata.empty] 1
      (set_queue [{| buffer := item 1%Z 5000000000%Z;
                     frame := CameraMetadata.empty |};
                  {| buffer := item 2%Z 5000000000%Z;
                     frame := CameraMetadata.empty |};
                  ZslPair_default] 2 0
         (ZslProcessor_new 3 2 (source []))) in
  frame <$> mZslQueue (findMatchesLocked st)
    = [metadata_at 5000000000%Z; CameraMetadata.empty; CameraMetadata.empty]
  ∧ mFrameList (findMatchesLocked st)
    = [CameraMetadata.empty; CameraMetadata.empty]
  ∧ findMatchesLocked (findMatchesLocked st) = findMatchesLocked st.
Proof. by vm_compute. Qed.

(** The second scenario of the specification: the buffer comes first and
    stays alone in its slot; the record that comes later completes the
    pair, with no new buffer. *)
Example late_record_completes_pair :
  ∃ st1 st2,
    processNewZslBuffer 3 2%Z accepting_client OK
      (ZslProcessor_new 3 6 (source [item 1%Z 500000000%Z]))
      = Some (OK, st1)
    ∧ mZslQueue st1 !! 0
      = Some {| buffer := item 1%Z 500000000%Z;
                frame := CameraMetadata.empty |}
    ∧ onFrameAvailable 6 0%Z (metadata_at 500000000%Z) st1
      = Some (st2, CameraMetadata.empty)
    ∧ mZslQueue st2 !! 0
      = Some {| buffer := item 1%Z 500000000%Z;
                frame := metadata_at 500000000%Z |}
    ∧ mFrameList st2 !! 0 = Some CameraMetadata.empty.
Proof.
  eexists _, _. split; [vm_compute; reflexivity|].
  split; [vm_compute; reflexivity|]. split; [vm_compute; reflexivity|].
  split; vm_compute; reflexivity.
Qed.

(** ** The arrival of a metadata record *)

(** Records without the timestamp are never put into a pair slot: a slot
    changed by a pass holds a record that has a timestamp, and a record of
    the history without one stays where it is. *)
Lemma findMatchesLocked_excludes_untimestamped st :
  (∀ i p', mZslQueue (findMatchesLocked st) !! i = Some p' →
     mZslQueue st !! i = Some p' ∨ ∃ t, timestamp_of (frame p') = Some t)
  ∧ (∀ j m, mFrameList st !! j = Some m → timestamp_of m = None →
       mFrameList (findMatchesLocked st) !! j = Some m).
Proof.
  split.
  - intros i p'. rewrite findMatchesLocked_queue.
    intros [?|(p & t & _ & _ & _ & Ht & _)]%matchQueue_slot; eauto.
  - intros j m. rewrite findMatchesLocked_frames.
    apply matchQueue_keeps_untimestamped.
Qed.

(** C9, the defect.  [onFrameAvailable] reads the first value of the
    timestamp entry (line 76) without the test on [entry.count] that
    [findMatchesLocked] makes (line 388): for a record that lacks the
    capture timestamp the entry has no value and the read is out of its
    data, so the call faults instead of completing. *)
Theorem onFrameAvailable_missing_timestamp_faults (F : nat) (frameId : Z)
    (frame : CameraMetadata.t) (st : ZslProcessor) :
  CameraMetadata.count (CameraMetadata.find ANDROID_SENSOR_TIMESTAMP frame) = 0 →
  onFrameAvailable F frameId frame st = None.
Proof.
  intros Hcount%missing_timestamp_None. unfold onFrameAvailable.
  unfold timestamp_of in Hcount. cbv zeta. by rewrite Hcount.
Qed.

Lemma onFrameAvailable_missing_timestamp_faults_witness :
  onFrameAvailable 6 0%Z [(ANDROID_REQUEST_ID, [7%Z])]
    (ZslProcessor_new 3 6 (source [])) = None.
Proof.
  apply (onFrameAvailable_missing_timestamp_faults 6 0%Z
           [(ANDROID_REQUEST_ID, [7%Z])] (ZslProcessor_new 3 6 (source []))).
  reflexivity.
Defined.

(** ** C4: what [record] does in each state *)

(** C4, as amended.  For a record that carries a timestamp: while the
    state is RUNNING the record is put into the history at the write index,
    over the record that was there, the other slots are kept, the write
    index advances modulo the depth, the caller's record is left empty, and
    a pass of the correlator follows in the same call; while the state is
    LOCKED the call changes nothing and the record stays with the
    caller. *)
Theorem onFrameAvailable_by_state (Q F : nat) (frameId : Z)
    (frame : CameraMetadata.t) (t : nsecs_t) (st : ZslProcessor) :
  wf Q F st →
  timestamp_of frame = Some t →
  (mState st = RUNNING →
   ∃ st1,
     onFrameAvailable F frameId frame st
       = Some (findMatchesLocked st1, CameraMetadata.empty)
     ∧ mFrameList st1 !! mFrameListHead st = Some frame
     ∧ (∀ j, j ≠ mFrameListHead st → mFrameList st1 !! j = mFrameList st !! j)
     ∧ mFrameListHead st1 = (mFrameListHead st + 1) mod F
     ∧ mFrameListHead st1 < F
     ∧ mZslQueue st1 = mZslQueue st
     ∧ mZslQueueHead st1 = mZslQueueHead st
     ∧ mZslQueueTail st1 = mZslQueueTail st
     ∧ mState st1 = RUNNING)
  ∧ (mState st = LOCKED →
     onFrameAvailable F frameId frame st = Some (st, frame)).
Proof.
  intros Hwf Hts. destruct Hwf. unfold onFrameAvailable.
  unfold timestamp_of in Hts. cbv zeta. rewrite Hts. simpl.
  split; intros Hstate.
  - rewrite decide_False by (by rewrite Hstate; intros []).
    unfold replaceAt. rewrite decide_True by lia. simpl.
    eexists. split; [reflexivity|]. simpl.
    split; [apply list_lookup_insert_eq; lia|].
    split; [intros j Hj; by apply list_lookup_insert_ne|].
    split; [done|]. split; [apply Nat.mod_upper_bound; lia|done].
  - rewrite decide_True; [done|]. by rewrite Hstate.
Qed.

Lemma onFrameAvailable_by_state_witness :
  let st := ZslProcessor_new 3 6 (source []) in
  let frame := metadata_at 100000000%Z in
  (mState st = RUNNING →
   ∃ st1,
     onFrameAvailable 6 0%Z frame st
       = Some (findMatchesLocked st1, CameraMetadata.empty)
     ∧ mFrameList st1 !! mFrameListHead st = Some frame
     ∧ (∀ j, j ≠ mFrameListHead st → mFrameList st1 !! j = mFrameList st !! j)
     ∧ mFrameListHead st1 = (mFrameListHead st + 1) mod 6
     ∧ mFrameListHead st1 < 6
     ∧ mZslQueue st1 = mZslQueue st
     ∧ mZslQueueHead st1 = mZslQueueHead st
     ∧ mZslQueueTail st1 = mZslQueueTail st
     ∧ mState st1 = RUNNING)
  ∧ (mState st = LOCKED →
     onFrameAvailable 6 0%Z frame st = Some (st, frame)).
Proof.
  apply (onFrameAvailable_by_state 3 6 0%Z (metadata_at 100000000%Z)
           100000000%Z (ZslProcessor_new 3 6 (source []))).
  - split; simpl; lia.
  - reflexivity.
Defined.

(** While the processor is LOCKED a record that arrives is not put into the
    history and the write index does not move. *)
Lemma onFrameAvailable_drops_when_locked :
  ∃ st, locked_run = Some st
    ∧ mState st = LOCKED
    ∧ ∃ st' frame',
        onFrameAvailable 6 0%Z (metadata_at 200000000%Z) st
          = Some (st', frame')
        ∧ mFrameList st' !! mFrameListHead st
          ≠ Some (metadata_at 200000000%Z)
        ∧ mFrameListHead st' ≠ (mFrameListHead st + 1) mod 6
        ∧ st' = st.
Proof.
  eexists. split; [vm_compute; reflexivity|]. split; [reflexivity|].
  eexists _, _. split; [vm_compute; reflexivity|]. by vm_compute.
Qed.

(** ** The hand-off: [pushToReprocess] *)

(** The loop of lines 240-243 ends within [kZslBufferDepth] turns. *)
Lemma scanQueue_total Q queue head fuel request index :
  0 < Q → length queue = Q → head < Q → index < Q →
  (if decide (index ≤ head) then head - index else head + Q - index) ≤ fuel →
  ∃ r idx, scanQueue Q fuel queue head request index = Some (r, idx) ∧ idx < Q.
Proof.
  intros HQ Hlen Hhead. revert request index.
  induction fuel as [|fuel IH]; intros request index Hindex Hdist.
  - simpl. destruct (CameraMetadata.isEmpty request); simpl; [|by eauto].
    case_bool_decide as Hne; [|by eauto].
    case_decide; lia.
  - simpl. destruct (CameraMetadata.isEmpty request); simpl; [|by eauto].
    case_bool_decide as Hne; [|by eauto].
    destruct (lookup_lt_is_Some_2 queue index) as [p Hp]; [lia|].
    rewrite Hp. simpl. apply IH.
    { apply Nat.mod_upper_bound. lia. }
    destruct (decide (index + 1 < Q)) as [Hlt|Hge].
    + rewrite Nat.mod_small by done. repeat case_decide; lia.
    + replace (index + 1) with Q by lia. rewrite Nat.Div0.mod_same.
      repeat case_decide; lia.
Qed.

Lemma scanQueue_none_found Q queue head fuel request index r idx :
  Forall (λ p, frame p = CameraMetadata.empty) queue →
  request = CameraMetadata.empty →
  scanQueue Q fuel queue head request index = Some (r, idx) →
  r = CameraMetadata.empty.
Proof.
  intros Hall. revert request index.
  induction fuel as [|fuel IH]; intros request index -> ; simpl.
  - case_bool_decide; [done|]. by intros [= <- _].
  - case_bool_decide; [|by intros [= <- _]].
    destruct (queue !! index) as [p|] eqn:Hp; [|done]. simpl.
    apply IH. by eapply (Forall_lookup_1 _ _ _ _ Hall).
Qed.

(** When the slot at the tail is complete, the loop stops after one turn:
    the request is that slot's record and [index] is the next slot. *)
Lemma scanQueue_tail_complete Q queue head tail p :
  0 < Q → tail ≠ head → queue !! tail = Some p →
  CameraMetadata.isEmpty (frame p) = false →
  scanQueue Q Q queue head CameraMetadata.empty tail
  = Some (frame p, (tail + 1) mod Q).
Proof.
  intros HQ Hne Hp Hframe. destruct Q as [|Q]; [lia|]. simpl.
  rewrite bool_decide_eq_true_2 by done. rewrite Hp. simpl.
  destruct Q; simpl; by rewrite Hframe.
Qed.

(** The ways a call with a live client can end. *)
Lemma pushToReprocess_outcome Q F requestId client updateRes st :
  wf Q F st →
  ∃ res st' calls,
    pushToReprocess Q requestId (Some client) updateRes st
      = Some (res, st', calls)
    ∧ (res ≠ OK ∧ st' = st
       ∨ res = OK ∧ st' = set_mState LOCKED st
         ∧ updateRes ANDROID_REQUEST_ID = OK
         ∧ ∃ handle request,
             calls = [PushReprocessBuffer (mZslReprocessStreamId st) handle;
                      Capture request]
             ∧ pushReprocessBuffer (getCameraDevice client)
                 (mZslReprocessStreamId st) handle = OK
             ∧ capture (getCameraDevice client) request = OK).
Proof.
  intros []. unfold pushToReprocess.
  case_decide as Hne; [|by eexists _, _, _; split; [|left]].
  destruct (scanQueue_total Q (mZslQueue st) (mZslQueueHead st) Q
              CameraMetadata.empty (mZslQueueTail st))
    as (request & index & -> & Hindex); [done..|case_decide; lia|].
  simpl. destruct (CameraMetadata.isEmpty request).
  { by eexists _, _, _; split; [|left]. }
  destruct (lookup_lt_is_Some_2 (mZslQueue st) index) as [p ->]; [lia|].
  simpl. case_decide as Hid.
  { by eexists _, _, _; split; [|left]. }
  case_decide as Hpush.
  { by eexists _, _, _; split; [|left]. }
  case_decide as Hcapture.
  { by eexists _, _, _; split; [|left]. }
  eexists _, _, _. split; [done|]. right. eauto 10.
Qed.

(** ** C10: the client is gone *)

(** C10.  When the client cannot be resolved, [pushToReprocess] returns
    [false], which as a [status_t] is 0, the value of [OK]; it makes no call
    to the device and leaves the processor as it was.  A call that does
    send a pair returns [OK] as well, so the status alone does not tell the
    two apart. *)
Theorem pushToReprocess_without_client (Q : nat) (requestId : Z)
    (updateRes : Tag → status_t) (st : ZslProcessor) :
  pushToReprocess Q requestId None updateRes st = Some (OK, st, [])
  ∧ status_of_bool false = OK
  ∧ ∀ F client res st' calls,
      wf Q F st →
      pushToReprocess Q requestId (Some client) updateRes st
        = Some (res, st', calls) →
      calls ≠ [] → st' ≠ st →
      Some (res, st, @nil DeviceCall)
      = pushToReprocess Q requestId None updateRes st.
Proof.
  split; [done|]. split; [done|].
  intros F client res st' calls Hwf Hrun Hcalls Hst'.
  destruct (pushToReprocess_outcome Q F requestId client updateRes st Hwf)
    as (res0 & st0 & calls0 & Hrun0 & Hcases).
  rewrite Hrun in Hrun0. injection Hrun0 as <- <- <-.
  destruct Hcases as [[_ ->]|[-> _]]; done.
Qed.

(** ** C5: failures of the hand-off *)

(** What does hold.  With a live client and a well-formed processor the
    call returns.  When no slot of the ring holds metadata it returns
    [BAD_VALUE] and calls nothing.  Whenever the status is not [OK] the
    processor is exactly as before: state, ring, history and cursors.  A
    failed update of the request id, a buffer sink that refuses, a capture
    that refuses: each gives a status other than [OK].  The state becomes
    LOCKED only on [OK], after both the buffer sink and the capture
    accepted. *)
Lemma pushToReprocess_failure_keeps_state (Q F : nat) (requestId : Z)
    (client : Camera2Client) (updateRes : Tag → status_t)
    (st : ZslProcessor) :
  wf Q F st →
  ∃ res st' calls,
    pushToReprocess Q requestId (Some client) updateRes st
      = Some (res, st', calls)
    ∧ (Forall (λ p, frame p = CameraMetadata.empty) (mZslQueue st) →
       res = BAD_VALUE ∧ calls = [])
    ∧ (res ≠ OK → st' = st)
    ∧ (updateRes ANDROID_REQUEST_ID ≠ OK → res ≠ OK)
    ∧ ((∀ streamId handle,
          pushReprocessBuffer (getCameraDevice client) streamId handle ≠ OK) →
       res ≠ OK)
    ∧ ((∀ request, capture (getCameraDevice client) request ≠ OK) → res ≠ OK)
    ∧ (mState st = RUNNING → mState st' = LOCKED →
       res = OK
       ∧ ∃ handle request,
           calls = [PushReprocessBuffer (mZslReprocessStreamId st) handle;
                    Capture request]
           ∧ pushReprocessBuffer (getCameraDevice client)
               (mZslReprocessStreamId st) handle = OK
           ∧ capture (getCameraDevice client) request = OK).
Proof.
  intros Hwf.
  destruct (pushToReprocess_outcome Q F requestId client updateRes st Hwf)
    as (res & st' & calls & Hrun & Hcases).
  exists res, st', calls. split; [done|]. split.
  { intros Hall. revert Hrun. unfold pushToReprocess.
    case_decide; [|by intros [= <- _ <-]].
    destruct (scanQueue _ _ _ _ _ _) as [[request index]|] eqn:Hscan; [|done].
    apply scanQueue_none_found in Hscan as ->; [|done..].
    simpl. by intros [= <- _ <-]. }
  destruct Hcases as [[Hres ->]|(-> & -> & Hid & handle & request & -> & Hp & Hc)].
  - split_and!; try done. intros Hrunning Hlocked. congruence.
  - split_and!.
    + by intros [].
    + intros Hupdate. by destruct Hupdate.
    + intros Hpush. by destruct (Hpush _ _ Hp).
    + intros Hcapture. by destruct (Hcapture _ Hc).
    + intros _ _. split; [done|]. by exists handle, request.
Qed.

Lemma pushToReprocess_failure_keeps_state_witness :
  ∃ res st' calls,
    pushToReprocess 3 7%Z (Some accepting_client) (λ _, OK)
      (ZslProcessor_new 3 6 (source [])) = Some (res, st', calls)
    ∧ res = BAD_VALUE ∧ st' = ZslProcessor_new 3 6 (source [])
    ∧ mState st' = RUNNING.
Proof.
  destruct (pushToReprocess_failure_keeps_state 3 6 7%Z accepting_client
              (λ _, OK) (ZslProcessor_new 3 6 (source [])))
    as (res & st' & calls & Hrun & Hnone & Hfail & _).
  { split; simpl; lia. }
  destruct Hnone as [-> ->].
  { repeat constructor. }
  exists BAD_VALUE, st', []. split; [done|]. split; [done|].
  assert (st' = ZslProcessor_new 3 6 (source [])) as -> by by apply Hfail.
  done.
Defined.

(** C5, the defect.  The request is built by four updates; the status of
    the first (the request type, line 252) is overwritten by the one of the
    last (the request id, line 260), and the statuses of the two in between
    (the streams, lines 255-259) are not kept.  When the type cannot be set
    and the request id can, with a complete pair at the tail and a device
    that accepts, the call does not fail: it returns [OK], the processor
    goes from RUNNING to LOCKED, and the device is given a buffer and a
    capture request that is the record of the slot with the request id
    alone, with neither type nor streams. *)
Theorem pushToReprocess_locks_after_failed_update (Q F : nat) (requestId : Z)
    (client : Camera2Client) (updateRes : Tag → status_t) (st : ZslProcessor)
    (p : ZslPair) :
  wf Q F st →
  mState st = RUNNING →
  mZslQueueTail st ≠ mZslQueueHead st →
  mZslQueue st !! mZslQueueTail st = Some p →
  CameraMetadata.isEmpty (frame p) = false →
  updateRes ANDROID_REQUEST_TYPE ≠ OK →
  updateRes ANDROID_REQUEST_ID = OK →
  (∀ streamId handle,
     pushReprocessBuffer (getCameraDevice client) streamId handle = OK) →
  (∀ request, capture (getCameraDevice client) request = OK) →
  ∃ st' handle,
    pushToReprocess Q requestId (Some client) updateRes st
    = Some (OK, st',
            [PushReprocessBuffer (mZslReprocessStreamId st) handle;
             Capture (CameraMetadata.set_entry ANDROID_REQUEST_ID [requestId]
                        (frame p))])
    ∧ mState st' = LOCKED
    ∧ st' ≠ st.
Proof.
  intros Hwf Hstate Hne Hp Hframe Htype Hid Hpush Hcapture.
  destruct Hwf. unfold pushToReprocess.
  rewrite decide_True by done.
  rewrite (scanQueue_tail_complete Q _ _ _ p) by done. simpl.
  rewrite Hframe.
  destruct (lookup_lt_is_Some_2 (mZslQueue st) ((mZslQueueTail st + 1) mod Q))
    as [next ->]; [rewrite wf_queue_size0; apply Nat.mod_upper_bound; lia|].
  simpl. unfold CameraMetadata.update.
  rewrite !(decide_False (P := updateRes ANDROID_REQUEST_TYPE = OK)) by done.
  rewrite Hid, Hpush, Hcapture.
  destruct (decide (OK = OK)) as [_|H]; [|by destruct H].
  destruct (decide (OK ≠ OK)) as [H|_]; [by destruct H|].
  eexists _, _. split; [done|]. split; [done|].
  intros Hsame. apply (f_equal mState) in Hsame. simpl in Hsame. congruence.
Qed.

Lemma pushToReprocess_locks_after_failed_update_witness :
  ∃ st, three_slots_run = Some st
    ∧ mState st = RUNNING
    ∧ ∃ st' handle,
        pushToReprocess 4 7%Z (Some accepting_client)
          (λ tag, if decide (tag = ANDROID_REQUEST_TYPE) then INVALID_OPERATION
                  else OK) st
        = Some (OK, st',
                [PushReprocessBuffer (mZslReprocessStreamId st) handle;
                 Capture (CameraMetadata.set_entry ANDROID_REQUEST_ID [7%Z]
                            (metadata_at 100000000%Z))])
        ∧ mState st' = LOCKED
        ∧ st' ≠ st.
Proof.
  eexists. split; [vm_compute; reflexivity|]. split; [reflexivity|].
  apply (pushToReprocess_locks_after_failed_update 4 8 7%Z accepting_client
           (λ tag, if decide (tag = ANDROID_REQUEST_TYPE) then INVALID_OPERATION
                   else OK) _
           {| buffer := item 11%Z 100000000%Z;
              frame := metadata_at 100000000%Z |}).
  - split; simpl; lia.
  - reflexivity.
  - simpl. lia.
  - reflexivity.
  - reflexivity.
  - vm_compute. discriminate.
  - reflexivity.
  - reflexivity.
  - reflexivity.
Defined.

(** ** C2: which slot is handed off *)

(** With a complete pair at the tail, the request is built from the record
    of the tail slot, and the handle given to the buffer sink is the one of
    the slot after it: [index] has already moved on when the handle is
    read (line 249). *)
Lemma pushToReprocess_handle_of_next_slot Q F requestId st p next :
  wf Q F st →
  mZslQueueTail st ≠ mZslQueueHead st →
  mZslQueue st !! mZslQueueTail st = Some p →
  CameraMetadata.isEmpty (frame p) = false →
  mZslQueue st !! ((mZslQueueTail st + 1) mod Q) = Some next →
  pushToReprocess Q requestId (Some accepting_client) (λ _, OK) st
  = Some (OK, set_mState LOCKED st,
          [PushReprocessBuffer (mZslReprocessStreamId st)
             (handle_of (buffer next));
           Capture
             (CameraMetadata.set_entry ANDROID_REQUEST_ID [requestId]
                (CameraMetadata.set_entry ANDROID_REQUEST_OUTPUT_STREAMS
                   [to_uint8 2]
                   (CameraMetadata.set_entry ANDROID_REQUEST_INPUT_STREAMS
                      [to_uint8 (mZslReprocessStreamId st)]
                      (CameraMetadata.set_entry ANDROID_REQUEST_TYPE
                         [ANDROID_REQUEST_TYPE_REPROCESS] (frame p)))))]).
Proof.
  intros [] Hne Hp Hframe Hnext. unfold pushToReprocess.
  rewrite decide_True by done.
  rewrite (scanQueue_tail_complete Q _ _ _ p) by done. simpl.
  rewrite Hframe, Hnext. reflexivity.
Qed.

(** C2, the defect.  Slots 0 and 2 hold complete pairs (buffers 11 and 13),
    slot 1 holds buffer 12 alone.  The capture request is built from the
    record of slot 0, and the handle sent for reprocessing is the one of
    buffer 12, from slot 1: the two do not come from the same slot. *)
Theorem pushToReprocess_buffer_of_wrong_slot :
  ∃ st, three_slots_run = Some st
    ∧ mZslQueueTail st = 0 ∧ mZslQueueHead st = 3
    ∧ mZslQueue st
      = [{| buffer := item 11%Z 100000000%Z;
            frame := metadata_at 100000000%Z |};
         {| buffer := item 12%Z 200000000%Z; frame := CameraMetadata.empty |};
         {| buffer := item 13%Z 300000000%Z;
            frame := metadata_at 300000000%Z |};
         ZslPair_default]
    ∧ ∃ request,
        pushToReprocess 4 7%Z (Some accepting_client) (λ _, OK) st
          = Some (OK, set_mState LOCKED st,
                  [PushReprocessBuffer (mZslReprocessStreamId st) (Some 12%Z);
                   Capture request])
        ∧ timestamp_of request = Some 100000000%Z
        ∧ Some 12%Z ≠ handle_of (item 11%Z 100000000%Z).
Proof.
  eexists. split; [vm_compute; reflexivity|]. split; [reflexivity|].
  split; [reflexivity|]. split; [reflexivity|].
  eexists. split; [vm_compute; reflexivity|].
  split; [vm_compute; reflexivity|]. discriminate.
Qed.

(** The first scenario of the specification: one record and its buffer,
    then the hand-off.  The pair is in slot 0 and the handle that is sent
    is the one of slot 1, which holds no buffer. *)
Example single_pair_sends_handle_of_empty_slot :
  ∃ st1 st2 request,
    onFrameAvailable 6 0%Z (metadata_at 100000000%Z)
      (ZslProcessor_new 3 6 (source [item 1%Z 100000000%Z]))
      = Some (st1, CameraMetadata.empty)
    ∧ processNewZslBuffer 3 2%Z accepting_client OK st1 = Some (OK, st2)
    ∧ mZslQueue st2 !! 0
      = Some {| buffer := item 1%Z 100000000%Z;
                frame := metadata_at 100000000%Z |}
    ∧ pushToReprocess 3 7%Z (Some accepting_client) (λ _, OK) st2
      = Some (OK, set_mState LOCKED st2,
              [PushReprocessBuffer NO_STREAM None; Capture request])
    ∧ timestamp_of request = Some 100000000%Z.
Proof.
  eexists _, _, _. split; [vm_compute; reflexivity|].
  split; [vm_compute; reflexivity|]. split; [vm_compute; reflexivity|].
  split; vm_compute; reflexivity.
Qed.

(** ** C6: the release notification *)

Lemma onBufferReleased_result Q F handle st :
  wf Q F st →
  ∃ p,
    mZslQueue st !! mZslQueueTail st = Some p
    ∧ onBufferReleased handle st
      = Some (set_mState RUNNING st,
              bool_decide (handle ≠ handle_of (buffer p))).
Proof.
  intros []. unfold onBufferReleased.
  destruct (lookup_lt_is_Some_2 (mZslQueue st) (mZslQueueTail st))
    as [p Hp]; [lia|].
  exists p. by rewrite Hp.
Qed.

(** C6.  On a well-formed processor [onBufferReleased] returns, whatever
    the handle; the state is RUNNING afterwards and nothing else changes.
    A handle other than the one of the buffer at the tail is logged, and
    that is all the comparison does. *)
Theorem onBufferReleased_resumes (Q F : nat) (handle : option Z)
    (st : ZslProcessor) :
  wf Q F st →
  ∃ expected logged,
    (handle_of ∘ buffer) <$> (mZslQueue st !! mZslQueueTail st)
      = Some expected
    ∧ onBufferReleased handle st = Some (set_mState RUNNING st, logged)
    ∧ mState (set_mState RUNNING st) = RUNNING
    ∧ (logged = true ↔ handle ≠ expected).
Proof.
  intros Hwf.
  destruct (onBufferReleased_result Q F handle st Hwf) as (p & Hp & ->).
  rewrite Hp. simpl. eexists _, _. split; [done|]. split; [done|].
  split; [done|]. apply bool_decide_eq_true.
Qed.

Lemma onBufferReleased_resumes_witness :
  ∃ st, locked_run = Some st ∧ mState st = LOCKED
    ∧ ∃ expected logged,
        (handle_of ∘ buffer) <$> (mZslQueue st !! mZslQueueTail st)
          = Some expected
        ∧ onBufferReleased (Some 99%Z) st = Some (set_mState RUNNING st, logged)
        ∧ mState (set_mState RUNNING st) = RUNNING
        ∧ (logged = true ↔ Some 99%Z ≠ expected).
Proof.
  eexists. split; [vm_compute; reflexivity|]. split; [reflexivity|].
  apply (onBufferReleased_resumes 3 6). split; simpl; lia.
Defined.

(** ** The worker: one buffer at a time *)

(** The fields a pass of the correlator leaves alone. *)
Ltac after_pass :=
  match goal with
  | |- context [findMatchesLocked ?X] =>
      destruct (findMatchesLocked_others X) as (-> & -> & -> & -> & _)
  end.

Lemma set_mZslConsumer_same st : set_mZslConsumer (mZslConsumer st) st = st.
Proof. by destruct st. Qed.

Lemma acquireBuffer_regular NBA c :
  acquireBuffer NBA OK c
  = match queuedItems c with
    | [] => (NBA, BufferItem_default, c)
    | item :: rest =>
        (OK, item, {| queuedItems := rest; releasedItems := releasedItems c |})
    end.
Proof. done. Qed.

(** An acquisition that fails: the status goes to the caller and nothing
    changes. *)
Lemma processNewZslBuffer_error Q NBA client err st :
  err ≠ OK → processNewZslBuffer Q NBA client err st = Some (err, st).
Proof.
  intros Herr. unfold processNewZslBuffer, acquireBuffer.
  rewrite decide_False by done. rewrite decide_True by done.
  by rewrite set_mZslConsumer_same.
Qed.

Lemma processNewZslBuffer_no_buffer Q NBA client st :
  NBA ≠ OK →
  queuedItems (mZslConsumer st) = [] →
  processNewZslBuffer Q NBA client OK st = Some (NBA, st).
Proof.
  intros HNBA Hqueued. unfold processNewZslBuffer.
  rewrite acquireBuffer_regular, Hqueued. rewrite decide_True by done.
  by rewrite set_mZslConsumer_same.
Qed.

Lemma processNewZslBuffer_locked Q NBA client st b rest :
  mState st = LOCKED →
  queuedItems (mZslConsumer st) = b :: rest →
  processNewZslBuffer Q NBA client OK st
  = Some (OK,
          set_mZslConsumer
            {| queuedItems := rest;
               releasedItems := releasedItems (mZslConsumer st) ++ [b] |} st).
Proof.
  intros Hstate Hqueued. unfold processNewZslBuffer.
  rewrite acquireBuffer_regular, Hqueued. rewrite decide_False by (by intros []).
  simpl. rewrite decide_True by done. by destruct st.
Qed.

(** The admission of a buffer while RUNNING, in terms of the buffers of the
    ring: [full] is the test of line 344. *)
Lemma processNewZslBuffer_running Q F NBA client st b rest :
  wf Q F st →
  mState st = RUNNING →
  queuedItems (mZslConsumer st) = b :: rest →
  ∃ st' oldest,
    let full := bool_decide ((mZslQueueHead st + 1) mod Q = mZslQueueTail st) in
    processNewZslBuffer Q NBA client OK st = Some (OK, st')
    ∧ wf Q F st'
    ∧ mState st' = RUNNING
    ∧ (buffer <$> mZslQueue st) !! mZslQueueTail st = Some oldest
    ∧ buffer <$> mZslQueue st'
      = <[mZslQueueHead st := b]>
          (if full then <[mZslQueueTail st := BufferItem_default]>
                          (buffer <$> mZslQueue st)
           else buffer <$> mZslQueue st)
    ∧ mZslQueueHead st' = (mZslQueueHead st + 1) mod Q
    ∧ mZslQueueTail st'
      = (if full then (mZslQueueTail st + 1) mod Q else mZslQueueTail st)
    ∧ queuedItems (mZslConsumer st') = rest
    ∧ releasedItems (mZslConsumer st')
      = releasedItems (mZslConsumer st) ++ (if full then [oldest] else []).
Proof.
  intros Hwf Hstate Hqueued. destruct Hwf.
  destruct (lookup_lt_is_Some_2 (mZslQueue st) (mZslQueueTail st))
    as [pt Hpt]; [lia|].
  destruct (lookup_lt_is_Some_2 (mZslQueue st) (mZslQueueHead st))
    as [ph Hph]; [lia|].
  assert (∀ n, n mod Q < Q) as Hmod by (intros; apply Nat.mod_upper_bound; lia).
  exists (snd (default (OK, st) (processNewZslBuffer Q NBA client OK st))),
    (buffer pt).
  unfold processNewZslBuffer. rewrite acquireBuffer_regular, Hqueued.
  rewrite decide_False by (by intros []). simpl.
  rewrite decide_False by (by rewrite Hstate). simpl.
  rewrite list_lookup_fmap, Hpt. simpl.
  case_bool_decide as Hfull.
  - rewrite decide_True by done. simpl.
    unfold replaceAt. rewrite decide_True by lia. simpl.
    destruct (lookup_lt_is_Some_2
                (<[mZslQueueTail st := ZslPair_default]> (mZslQueue st))
                (mZslQueueHead st)) as [ph' ->];
      [rewrite length_insert; lia|].
    simpl. rewrite decide_True by (rewrite length_insert; lia). simpl.
    split; [done|]. split.
    { apply findMatchesLocked_wf. split; simpl; rewrite ?length_insert; auto. }
    after_pass.
    rewrite findMatchesLocked_buffers. simpl.
    by rewrite !list_fmap_insert.
  - rewrite decide_False by done. simpl. rewrite Hph. simpl.
    unfold replaceAt. rewrite decide_True by lia. simpl.
    split; [done|]. split.
    { apply findMatchesLocked_wf. split; simpl; rewrite ?length_insert; auto. }
    after_pass.
    rewrite findMatchesLocked_buffers. simpl.
    by rewrite list_fmap_insert, app_nil_r.
Qed.

(** The admission of a buffer while RUNNING, before the pass of the
    correlator that ends it: the slot at the tail is reset as a whole when
    the ring is full, and the slot at the head takes the buffer and holds
    no metadata. *)
Lemma processNewZslBuffer_before_pass Q F NBA client st b rest :
  wf Q F st →
  mState st = RUNNING →
  queuedItems (mZslConsumer st) = b :: rest →
  ∃ st1,
    processNewZslBuffer Q NBA client OK st = Some (OK, findMatchesLocked st1)
    ∧ mFrameList st1 = mFrameList st
    ∧ mFrameListHead st1 = mFrameListHead st
    ∧ mZslQueue st1
      = <[mZslQueueHead st := {| buffer := b; frame := CameraMetadata.empty |}]>
          (if bool_decide ((mZslQueueHead st + 1) mod Q = mZslQueueTail st)
           then <[mZslQueueTail st := ZslPair_default]> (mZslQueue st)
           else mZslQueue st).
Proof.
  intros Hwf Hstate Hqueued. destruct Hwf.
  destruct (lookup_lt_is_Some_2 (mZslQueue st) (mZslQueueTail st))
    as [pt Hpt]; [lia|].
  destruct (lookup_lt_is_Some_2 (mZslQueue st) (mZslQueueHead st))
    as [ph Hph]; [lia|].
  unfold processNewZslBuffer. rewrite acquireBuffer_regular, Hqueued.
  rewrite decide_False by (by intros []). simpl.
  rewrite decide_False by (by rewrite Hstate). simpl.
  case_bool_decide as Hfull.
  - rewrite decide_True by done. rewrite Hpt. simpl.
    unfold replaceAt. rewrite decide_True by lia. simpl.
    destruct (lookup_lt_is_Some_2
                (<[mZslQueueTail st := ZslPair_default]> (mZslQueue st))
                (mZslQueueHead st)) as [ph' ->];
      [rewrite length_insert; lia|].
    simpl. rewrite decide_True by (rewrite length_insert; lia). simpl.
    eexists. split; [reflexivity|]. done.
  - rewrite decide_False by done. simpl. rewrite Hph. simpl.
    unfold replaceAt. rewrite decide_True by lia. simpl.
    eexists. split; [reflexivity|]. done.
Qed.

(** The ways one call of [processNewZslBuffer] can end on a well-formed
    processor: it never faults; a status other than [OK] comes from an
    error of the acquisition or from a source that holds nothing, and
    leaves everything as it was; on [OK] one buffer has been taken, and
    given back or admitted according to the state. *)
Lemma processNewZslBuffer_cases Q F NBA client err st :
  wf Q F st → NBA ≠ OK →
  ∃ res st',
    processNewZslBuffer Q NBA client err st = Some (res, st')
    ∧ wf Q F st'
    ∧ mState st' = mState st
    ∧ (res ≠ OK ∧ st' = st
         ∧ (err ≠ OK ∨ queuedItems (mZslConsumer st) = [])
       ∨ res = OK ∧ err = OK
         ∧ ∃ b rest,
             queuedItems (mZslConsumer st) = b :: rest
             ∧ queuedItems (mZslConsumer st') = rest
             ∧ (mState st = LOCKED
                  ∧ st' = set_mZslConsumer
                            {| queuedItems := rest;
                               releasedItems :=
                                 releasedItems (mZslConsumer st) ++ [b] |} st
                ∨ mState st = RUNNING)).
Proof.
  intros Hwf HNBA.
  destruct (decide (err = OK)) as [->|Herr]; last first.
  { rewrite processNewZslBuffer_error by done.
    eexists _, _. split; [done|]. split; [done|]. split; [done|].
    left. eauto. }
  destruct (queuedItems (mZslConsumer st)) as [|b rest] eqn:Hq.
  { rewrite processNewZslBuffer_no_buffer by done.
    eexists _, _. split; [done|]. split; [done|]. split; [done|].
    left. eauto. }
  destruct (mState st) eqn:Hs.
  - destruct (processNewZslBuffer_running Q F NBA client st b rest Hwf Hs Hq)
      as (st' & oldest & Hrun & Hwf' & Hs' & _ & _ & _ & _ & Hq' & _).
    exists OK, st'. split; [done|]. split; [done|]. split; [done|].
    right. split; [done|]. split; [done|]. exists b, rest. eauto.
  - rewrite (processNewZslBuffer_locked _ _ _ _ b rest) by done.
    eexists _, _. split; [done|]. split; [by destruct Hwf|]. split; [done|].
    right. split; [done|]. split; [done|]. exists b, rest.
    split; [done|]. split; [done|]. by left.
Qed.

(** ** C7: LOCKED suppresses admission *)

Lemma drain_locked Q NBA client bs st n :
  NBA ≠ OK →
  mState st = LOCKED →
  queuedItems (mZslConsumer st) = bs →
  length bs < n →
  drain Q NBA (replicate n (regular client)) st
  = Some (true,
          set_mZslConsumer
            {| queuedItems := [];
               releasedItems := releasedItems (mZslConsumer st) ++ bs |} st).
Proof.
  intros HNBA. revert st n.
  induction bs as [|b bs IH]; intros st n Hstate Hqueued Hn;
    (destruct n as [|n]; [simpl in Hn; lia|]); simpl.
  - rewrite processNewZslBuffer_no_buffer by done. simpl.
    rewrite decide_False by done. rewrite app_nil_r, <-Hqueued.
    f_equal. f_equal. by destruct st as [? ? ? []].
  - rewrite (processNewZslBuffer_locked _ _ _ _ b bs) by done. simpl.
    rewrite IH; [|done|done|simpl in Hn; lia]. simpl.
    by rewrite <-app_assoc.
Qed.

(** While LOCKED, whatever the surroundings answer on each turn: the loop
    ends, and when it does the first [k] buffers of the source have been
    taken and given back, in order, and nothing else has changed.  The loop
    ends early when the client is gone or an acquisition fails. *)
Lemma drain_locked_any Q NBA turns st :
  NBA ≠ OK →
  mState st = LOCKED →
  length (queuedItems (mZslConsumer st)) < length turns →
  ∃ r k,
    drain Q NBA turns st
    = Some (r,
            set_mZslConsumer
              {| queuedItems := drop k (queuedItems (mZslConsumer st));
                 releasedItems :=
                   releasedItems (mZslConsumer st)
                     ++ take k (queuedItems (mZslConsumer st)) |} st).
Proof.
  intros HNBA. revert st.
  induction turns as [|turn turns IH]; intros st Hstate Hlen;
    [simpl in Hlen; lia|].
  assert (set_mZslConsumer
            {| queuedItems := drop 0 (queuedItems (mZslConsumer st));
               releasedItems :=
                 releasedItems (mZslConsumer st)
                   ++ take 0 (queuedItems (mZslConsumer st)) |} st = st)
    as Hsame.
  { rewrite drop_0, take_0, app_nil_r. by destruct st as [? ? ? []]. }
  cbn [drain]. destruct (turn_client turn) as [c|].
  2: { exists false, 0. by rewrite Hsame. }
  destruct (decide (turn_error turn = OK)) as [->|Herr]; last first.
  { rewrite processNewZslBuffer_error by done. cbn [mbind option_bind].
    rewrite decide_False by done. exists true, 0. by rewrite Hsame. }
  destruct (queuedItems (mZslConsumer st)) as [|b rest] eqn:Hq.
  { rewrite processNewZslBuffer_no_buffer by done. cbn [mbind option_bind].
    rewrite decide_False by done. exists true, 0. by rewrite Hsame. }
  rewrite (processNewZslBuffer_locked _ _ _ _ b rest) by done.
  cbn [mbind option_bind]. rewrite decide_True by done.
  destruct (IH (set_mZslConsumer
                  {| queuedItems := rest;
                     releasedItems := releasedItems (mZslConsumer st) ++ [b] |}
                  st)) as (r & k & ->); [done|simpl in *; lia|].
  exists r, (S k). simpl. by rewrite <-app_assoc.
Qed.

(** C7.  While the state is LOCKED the worker's loop takes every buffer
    the source holds and gives each one back, in order; the ring, its
    cursors and the history are untouched and the state is still LOCKED.
    After a release notification the state is RUNNING, and the next buffer
    delivered is written into the ring at the head, which advances.  When
    the loop ends early, because the client is gone or an acquisition
    fails, the same holds of the buffers it has taken: they are the first
    [k] of the source, each is given back, and none is in the ring. *)
Theorem locked_drains_without_admitting (Q F : nat) (NBA : status_t)
    (client : Camera2Client) (st : ZslProcessor) (handle : option Z)
    (b : BufferItem) :
  wf Q F st →
  NBA ≠ OK →
  mState st = LOCKED →
  (∃ st1,
     drain Q NBA
       (replicate (S (length (queuedItems (mZslConsumer st)))) (regular client))
       st
       = Some (true, st1)
     ∧ queuedItems (mZslConsumer st1) = []
     ∧ releasedItems (mZslConsumer st1)
       = releasedItems (mZslConsumer st) ++ queuedItems (mZslConsumer st)
     ∧ mZslQueue st1 = mZslQueue st
     ∧ mZslQueueHead st1 = mZslQueueHead st
     ∧ mZslQueueTail st1 = mZslQueueTail st
     ∧ mFrameList st1 = mFrameList st
     ∧ mState st1 = LOCKED
     ∧ ∃ st2 logged st3,
         onBufferReleased handle st1 = Some (st2, logged)
         ∧ mState st2 = RUNNING
         ∧ processNewZslBuffer Q NBA client OK (queueBuffer b st2)
           = Some (OK, st3)
         ∧ (buffer <$> mZslQueue st3) !! mZslQueueHead st = Some b
         ∧ mZslQueueHead st3 = (mZslQueueHead st + 1) mod Q
         ∧ queuedItems (mZslConsumer st3) = [])
  ∧ (∀ turns,
       length (queuedItems (mZslConsumer st)) < length turns →
       ∃ r st1 k,
         drain Q NBA turns st = Some (r, st1)
         ∧ queuedItems (mZslConsumer st1)
           = drop k (queuedItems (mZslConsumer st))
         ∧ releasedItems (mZslConsumer st1)
           = releasedItems (mZslConsumer st)
               ++ take k (queuedItems (mZslConsumer st))
         ∧ mZslQueue st1 = mZslQueue st
         ∧ mZslQueueHead st1 = mZslQueueHead st
         ∧ mZslQueueTail st1 = mZslQueueTail st
         ∧ mFrameList st1 = mFrameList st
         ∧ mState st1 = LOCKED).
Proof.
  intros Hwf HNBA Hstate. split; last first.
  { intros turns Hlen.
    destruct (drain_locked_any Q NBA turns st HNBA Hstate Hlen)
      as (r & k & ->).
    eexists _, _, k. split; [done|]. by split_and!. }
  eexists. split.
  { apply drain_locked; [done|done|reflexivity|lia]. }
  simpl. do 7 (split; [done|]).
  set (st1 := set_mZslConsumer _ st).
  assert (wf Q F st1) as Hwf1 by (by destruct Hwf).
  destruct (onBufferReleased_result Q F handle st1 Hwf1)
    as (p & _ & Hreleased).
  set (logged := bool_decide _) in Hreleased.
  set (st2 := set_mState RUNNING st1) in *.
  assert (wf Q F (queueBuffer b st2)) as Hwf2 by (by destruct Hwf).
  destruct (processNewZslBuffer_running Q F NBA client (queueBuffer b st2)
              b [] Hwf2)
    as (st3 & oldest & Hrun & Hwf3 & _ & Holdest & Hbuffers & Hhead & _
        & Hqueued & Hrel); [done..|].
  exists st2, logged, st3. split; [done|]. split; [done|]. split; [done|].
  simpl in *. split.
  { rewrite Hbuffers. apply list_lookup_insert_eq.
    destruct Hwf. case_bool_decide; rewrite ?length_insert, length_fmap; lia. }
  split; done.
Qed.

Lemma locked_drains_without_admitting_witness :
  ∃ st, locked_run = Some st
    ∧ ∃ st1,
        drain 3 2%Z (replicate 3 (regular accepting_client))
          (queueBuffer (item 3%Z 300000000%Z)
             (queueBuffer (item 2%Z 200000000%Z) st)) = Some (true, st1)
        ∧ releasedItems (mZslConsumer st1)
          = [item 2%Z 200000000%Z; item 3%Z 300000000%Z]
        ∧ mZslQueue st1 = mZslQueue st
        ∧ mState st1 = LOCKED.
Proof.
  eexists. split; [vm_compute; reflexivity|].
  set (st := queueBuffer _ (queueBuffer _ _)).
  destruct (locked_drains_without_admitting 3 6 2%Z accepting_client st
              (Some 1%Z) (item 4%Z 400000000%Z))
    as [(st1 & Hdrain & _ & Hreleased & Hqueue & _ & _ & _ & Hstate & _) _].
  - split; simpl; lia.
  - discriminate.
  - reflexivity.
  - exists st1. split; [exact Hdrain|]. split; [exact Hreleased|].
    split; [exact Hqueue|exact Hstate].
Defined.

(** ** The ring and its eviction *)

Lemma rotate_nat_add_len base len :
  base < len → rotate_nat_add base len len = base.
Proof.
  intros Hlt. unfold rotate_nat_add.
  replace (Z.of_nat base + Z.of_nat len)%Z
    with (Z.of_nat base + 1 * Z.of_nat len)%Z by lia.
  rewrite Z.mod_add by lia. rewrite Z.mod_small by lia. apply Nat2Z.id.
Qed.

Lemma rotate_nat_add_next base offset len :
  0 < len →
  rotate_nat_add ((base + 1) mod len) offset len
  = rotate_nat_add base (S offset) len.
Proof.
  intros Hlen. rewrite <-rotate_nat_add_add_mod. unfold rotate_nat_add.
  f_equal. f_equal. lia.
Qed.

(** Reading the ring from the next slot on: the first item goes last. *)
Lemma rotate_next {A} (l : list A) (n : nat) (x : A) (r : list A) :
  n < length l →
  rotate n l = x :: r →
  rotate ((n + 1) mod length l) l = r ++ [x].
Proof.
  intros Hn. unfold rotate. rewrite Nat.Div0.mod_mod.
  rewrite (Nat.mod_small n) by done.
  destruct (lookup_lt_is_Some_2 l n Hn) as [y Hy].
  rewrite (drop_S l y n Hy). intros [= -> <-].
  destruct (decide (n + 1 < length l)) as [Hlt|Hge].
  - rewrite Nat.mod_small by done. rewrite Nat.add_1_r.
    rewrite (take_S_r l n x Hy). by rewrite app_assoc.
  - replace (n + 1) with (length l) by lia. rewrite Nat.Div0.mod_same.
    rewrite (drop_ge l (S n)) by lia. rewrite drop_0, take_0, app_nil_r.
    simpl. rewrite <-(take_drop n l) at 1.
    by rewrite (drop_S l x n Hy), (drop_ge l (S n)) by lia.
Qed.

(** One admission, on the window: the step of [fifo_admit] with capacity
    [Q - 1]. *)
Lemma processNewZslBuffer_fifo Q F NBA client st b rest w :
  2 ≤ Q →
  wf Q F st →
  mState st = RUNNING →
  queuedItems (mZslConsumer st) = b :: rest →
  ring_holds Q st w →
  ∃ st',
    processNewZslBuffer Q NBA client OK st = Some (OK, st')
    ∧ wf Q F st'
    ∧ mState st' = RUNNING
    ∧ queuedItems (mZslConsumer st') = rest
    ∧ ring_holds Q st'
        (fifo_admit (Q - 1) (w, releasedItems (mZslConsumer st)) b).1
    ∧ releasedItems (mZslConsumer st')
      = (fifo_admit (Q - 1) (w, releasedItems (mZslConsumer st)) b).2.
Proof.
  intros HQ Hwf Hstate Hqueued (Hlen & Hhead & Hrot).
  destruct (processNewZslBuffer_running Q F NBA client st b rest Hwf Hstate
              Hqueued)
    as (st' & oldest & Hrun & Hwf' & Hstate' & Holdest & Hbuffers & Hhead'
        & Htail' & Hqueued' & Hreleased').
  exists st'. do 4 (split; [done|]).
  destruct Hwf. clear Hrun Hwf' Hstate' Hqueued'.
  set (bufs := buffer <$> mZslQueue st) in *.
  assert (length bufs = Q) as Hbufs by (unfold bufs; by rewrite length_fmap).
  assert ((mZslQueueHead st + 1) mod Q
          = rotate_nat_add (mZslQueueTail st) (S (length w)) Q) as Hnext.
  { rewrite rotate_nat_add_S by lia. by rewrite Hhead, Nat.add_1_r. }
  unfold fifo_admit, ring_holds. simpl.
  destruct (decide (length w = Q - 1)) as [Hfull|Hroom]; simpl.
  - (* the ring is full: the oldest buffer goes back to the source *)
    assert ((mZslQueueHead st + 1) mod Q = mZslQueueTail st) as Hevict.
    { rewrite Hnext. replace (S (length w)) with Q by lia.
      by apply rotate_nat_add_len. }
    rewrite bool_decide_eq_true_2 in * by done.
    destruct w as [|x w']; [simpl in Hfull; lia|]. simpl in Hfull.
    assert (oldest = x) as ->.
    { assert (rotate (mZslQueueTail st) bufs !! 0 = Some x) as Hx
        by (by rewrite Hrot).
      rewrite lookup_rotate_r in Hx by lia.
      rewrite Hbufs, rotate_nat_add_0 in Hx by done. congruence. }
    simpl (list.tail _). simpl (take 1 _). simpl (length (x :: w')) in *.
    split; [|by rewrite Hreleased', take_0].
    rewrite Hbuffers, Htail', Hhead'. rewrite Hevict at 1.
    rewrite length_app. simpl.
    assert (rotate ((mZslQueueTail st + 1) mod Q)
              (<[mZslQueueTail st := BufferItem_default]> bufs)
            = (w' ++ replicate (Q - S (length w')) BufferItem_default)
                ++ [BufferItem_default]) as Hrot1.
    { rewrite <-Hbufs at 1.
      rewrite <-(length_insert bufs (mZslQueueTail st) BufferItem_default).
      apply rotate_next; [rewrite length_insert; lia|].
      rewrite <-(rotate_nat_add_0 (mZslQueueTail st) (length bufs)) at 2 by lia.
      rewrite rotate_insert_l by lia. by rewrite Hrot. }
    assert (mZslQueueHead st
            = rotate_nat_add ((mZslQueueTail st + 1) mod Q) (length w')
                (length (<[mZslQueueTail st := BufferItem_default]> bufs)))
      as Hhead2.
    { rewrite length_insert, Hbufs, rotate_nat_add_next by lia. done. }
    split; [lia|]. split.
    { rewrite rotate_nat_add_next by lia.
      replace (S (length w' + 1)) with Q by lia.
      by rewrite rotate_nat_add_len. }
    rewrite Hhead2 at 1. rewrite rotate_insert_l by (rewrite length_insert; lia).
    rewrite Hrot1. replace (Q - S (length w')) with 1 by lia. simpl.
    rewrite <-app_assoc. rewrite insert_app_r_alt by lia.
    rewrite Nat.sub_diag. simpl. rewrite <-app_assoc.
    by replace (Q - (length w' + 1)) with 1 by lia.
  - (* there is room: nothing goes back *)
    assert ((mZslQueueHead st + 1) mod Q ≠ mZslQueueTail st) as Hkeep.
    { rewrite Hnext. rewrite rotate_nat_add_alt by lia.
      destruct (decide (mZslQueueTail st + S (length w) < Q)); lia. }
    rewrite bool_decide_eq_false_2 in * by done.
    split; [|by rewrite Hreleased', app_nil_r].
    rewrite Hbuffers, Htail', Hhead'. rewrite length_app. simpl.
    split; [lia|]. split.
    { rewrite Hnext. f_equal. lia. }
    rewrite Hhead at 1. rewrite <-Hbufs at 1.
    rewrite rotate_insert_l by lia. rewrite Hrot.
    rewrite insert_app_r_alt by lia. rewrite Nat.sub_diag.
    replace (Q - length w) with (S (Q - (length w + 1))) by lia.
    simpl. by rewrite <-app_assoc.
Qed.

Lemma fifo_admit_full cap x w released b :
  length (x :: w) = cap →
  fifo_admit cap (x :: w, released) b = (w ++ [b], released ++ [x]).
Proof.
  intros Hfull. unfold fifo_admit. rewrite decide_True by done.
  simpl. by rewrite take_0.
Qed.

Lemma fifo_admit_room cap w released b :
  length w ≠ cap → fifo_admit cap (w, released) b = (w ++ [b], released).
Proof. intros Hroom. unfold fifo_admit. by rewrite decide_False. Qed.

(** The abstract window after a run of admissions: nothing is lost, and
    the window holds as many buffers as came, up to its capacity. *)
Lemma fifo_admit_fold cap bs w released :
  1 ≤ cap → length w ≤ cap →
  (foldl (fifo_admit cap) (w, released) bs).2
    ++ (foldl (fifo_admit cap) (w, released) bs).1
  = released ++ w ++ bs
  ∧ length (foldl (fifo_admit cap) (w, released) bs).1
    = Nat.min (length w + length bs) cap.
Proof.
  intros Hcap. revert w released.
  induction bs as [|b bs IH]; intros w released Hw; cbn [foldl].
  { rewrite app_nil_r. cbn [fst snd length]. split; [done|lia]. }
  destruct (decide (length w = cap)) as [Hfull|Hroom].
  - destruct w as [|x w']; [simpl in Hfull; lia|].
    rewrite fifo_admit_full by done. cbn [length] in *.
    destruct (IH (w' ++ [b]) (released ++ [x])) as [-> ->].
    { rewrite length_app. cbn [length]. lia. }
    rewrite length_app. cbn [length].
    split; [|lia]. by rewrite <-!app_assoc.
  - rewrite fifo_admit_room by done.
    destruct (IH (w ++ [b]) released) as [-> ->].
    { rewrite length_app. cbn [length]. lia. }
    rewrite length_app. cbn [length].
    split; [|lia]. by rewrite <-!app_assoc.
Qed.

Lemma ZslProcessor_new_wf Q F consumer :
  0 < Q → 0 < F → wf Q F (ZslProcessor_new Q F consumer).
Proof. intros. split; simpl; rewrite ?length_replicate; done. Qed.

Lemma ZslProcessor_new_ring Q F consumer :
  0 < Q → ring_holds Q (ZslProcessor_new Q F consumer) [].
Proof.
  intros HQ. unfold ring_holds. simpl. split; [done|].
  split; [by rewrite rotate_nat_add_0|].
  by rewrite fmap_replicate, rotate_replicate, Nat.sub_0_r.
Qed.

(** The worker's loop while RUNNING: every buffer of the source is
    admitted, and the ring follows the first-in first-out window of
    capacity [Q - 1]. *)
Lemma drain_running Q F NBA client bs st n w :
  2 ≤ Q → NBA ≠ OK →
  wf Q F st →
  mState st = RUNNING →
  ring_holds Q st w →
  queuedItems (mZslConsumer st) = bs →
  length bs < n →
  ∃ st',
    drain Q NBA (replicate n (regular client)) st = Some (true, st')
    ∧ wf Q F st'
    ∧ mState st' = RUNNING
    ∧ queuedItems (mZslConsumer st') = []
    ∧ ring_holds Q st'
        (foldl (fifo_admit (Q - 1)) (w, releasedItems (mZslConsumer st)) bs).1
    ∧ releasedItems (mZslConsumer st')
      = (foldl (fifo_admit (Q - 1)) (w, releasedItems (mZslConsumer st)) bs).2.
Proof.
  intros HQ HNBA. revert st n w.
  induction bs as [|b bs IH]; intros st n w Hwf Hstate Hring Hqueued Hfuel;
    (destruct n as [|n]; [simpl in Hfuel; lia|]);
    cbn [replicate drain foldl regular turn_client turn_error].
  - rewrite processNewZslBuffer_no_buffer by done. simpl.
    rewrite decide_False by done. by exists st.
  - destruct (processNewZslBuffer_fifo Q F NBA client st b bs w HQ Hwf Hstate
                Hqueued Hring)
      as (st1 & -> & Hwf1 & Hstate1 & Hqueued1 & Hring1 & Hreleased1).
    destruct (fifo_admit (Q - 1) (w, releasedItems (mZslConsumer st)) b)
      as [w1 released1] eqn:Hstep.
    cbn [fst snd] in Hring1, Hreleased1. rewrite <-Hreleased1.
    cbn [mbind option_bind]. rewrite decide_True by done.
    apply IH; [done..|simpl in Hfuel; lia].
Qed.

(** ** C3: first-in first-out eviction *)

(** With no record in the history a pass of the correlator changes
    nothing. *)
Lemma matchQueue_no_records queue frames :
  Forall (λ m, m = CameraMetadata.empty) frames →
  matchQueue queue frames = (queue, frames).
Proof.
  intros Hnone.
  assert (∀ t_b, scanFrameList t_b frames = None) as Hscan.
  { intros t_b. apply scanFrameList_None.
    eapply list.Forall_impl; [exact Hnone|]. intros m ->. apply frameMatches_empty. }
  induction queue as [|p queue IH]; simpl; [done|].
  assert (matchEntry p frames = (p, frames)) as ->.
  { unfold matchEntry. destruct (seeking p); [|done]. by rewrite Hscan. }
  by rewrite IH.
Qed.

(** A slot that holds no buffer is left alone by a pass. *)
Lemma findMatchesLocked_default_slot st i :
  mZslQueue st !! i = Some ZslPair_default →
  mZslQueue (findMatchesLocked st) !! i = Some ZslPair_default.
Proof.
  intros Hi. rewrite findMatchesLocked_queue.
  destruct (lookup_lt_is_Some_2 (matchQueue (mZslQueue st) (mFrameList st)).1 i)
    as [p' Hp'].
  { destruct (matchQueue_lengths (mZslQueue st) (mFrameList st)) as [-> _].
    by eapply lookup_lt_Some. }
  rewrite Hp'.
  apply matchQueue_slot in Hp' as [Hold|(p & t & Hp & Hseek & _)].
  - congruence.
  - rewrite Hi in Hp. injection Hp as <-. discriminate Hseek.
Qed.

(** While neither the ring nor the history holds a record, the worker's
    loop brings none. *)
Lemma drain_no_metadata Q F NBA turns st r st' :
  NBA ≠ OK →
  wf Q F st →
  Forall (λ p, frame p = CameraMetadata.empty) (mZslQueue st) →
  Forall (λ m, m = CameraMetadata.empty) (mFrameList st) →
  drain Q NBA turns st = Some (r, st') →
  Forall (λ p, frame p = CameraMetadata.empty) (mZslQueue st').
Proof.
  intros HNBA. revert st.
  induction turns as [|turn turns IH]; intros st Hwf Hslots Hframes; [done|].
  cbn [drain]. destruct (turn_client turn) as [c|]; [|by intros [= _ <-]].
  destruct (processNewZslBuffer_cases Q F NBA c (turn_error turn) st Hwf HNBA)
    as (res & st1 & Hrun & Hwf1 & _ & Hcases).
  rewrite Hrun. cbn [mbind option_bind].
  destruct Hcases as [(Hres & -> & _)|(-> & Herr & b & rest & Hq & _ & Hstate)].
  { rewrite decide_False by done. by intros [= _ <-]. }
  rewrite decide_True by done. apply IH; [done| |].
  - destruct Hstate as [[_ ->]|Hs]; [done|].
    rewrite Herr in Hrun.
    destruct (processNewZslBuffer_before_pass Q F NBA c st b rest Hwf Hs Hq)
      as (st0 & Hrun0 & Hfl & _ & Hqueue).
    rewrite Hrun in Hrun0. injection Hrun0 as ->.
    rewrite findMatchesLocked_queue, Hfl, matchQueue_no_records by done.
    simpl. rewrite Hqueue. apply Forall_insert; [|done].
    case_bool_decide; [|done]. by apply Forall_insert.
  - destruct Hstate as [[_ ->]|Hs]; [done|].
    rewrite Herr in Hrun.
    destruct (processNewZslBuffer_before_pass Q F NBA c st b rest Hwf Hs Hq)
      as (st0 & Hrun0 & Hfl & _ & Hqueue).
    rewrite Hrun in Hrun0. injection Hrun0 as ->.
    rewrite findMatchesLocked_frames, Hfl, matchQueue_no_records by done.
    done.
Qed.

Lemma rotate_fmap {A B} (f : A → B) (n : nat) (l : list A) :
  rotate n (f <$> l) = f <$> rotate n l.
Proof.
  unfold rotate. by rewrite length_fmap, fmap_app, fmap_drop, fmap_take.
Qed.

(** Slots without metadata are given by their buffers. *)
Lemma slots_of_buffers (queue : list ZslPair) :
  Forall (λ p, frame p = CameraMetadata.empty) queue →
  queue
  = (λ b, {| buffer := b; frame := CameraMetadata.empty |}) <$> (buffer <$> queue).
Proof.
  induction 1 as [|[b f] queue Hp _ IH]; csimpl; [done|].
  simpl in Hp. subst f. by rewrite <-IH.
Qed.

(** C3, as amended.  Take a ring of depth [Q], at least 2, that starts
    empty, and [Q + 1] buffers delivered while RUNNING.  The worker's loop
    admits them all and ends; afterwards the ring holds exactly the most
    recent [Q - 1] of them, oldest at the tail, and its one other slot is
    cleared: read from the tail, the slots are those [Q - 1] buffers, each
    without metadata, and then the default pair.  The two oldest buffers
    have gone back to the source, each once, oldest first.  The rule of one
    admission, on any well-formed RUNNING processor: when
    [(head + 1) mod Q = tail] the buffer of the tail slot is given back,
    the tail slot is cleared as a whole, buffer and metadata, and the tail
    advances; otherwise nothing is given back and the tail stays; in both
    cases the new buffer is written at the head, without metadata, the head
    advances, and a pass of the correlator follows. *)
Theorem fifo_eviction (Q F : nat) (NBA : status_t) (client : Camera2Client)
    (bs : list BufferItem) :
  2 ≤ Q → 0 < F → NBA ≠ OK →
  length bs = Q + 1 →
  (∃ st',
     drain Q NBA (replicate (Q + 2) (regular client))
       (ZslProcessor_new Q F (source bs))
       = Some (true, st')
     ∧ mState st' = RUNNING
     ∧ ring_holds Q st' (drop 2 bs)
     ∧ length (drop 2 bs) = Q - 1
     ∧ releasedItems (mZslConsumer st') = take 2 bs
     ∧ rotate (mZslQueueTail st') (mZslQueue st')
       = ((λ b, {| buffer := b; frame := CameraMetadata.empty |}) <$> drop 2 bs)
           ++ [ZslPair_default])
  ∧ (∀ st b rest,
       wf Q F st → mState st = RUNNING →
       queuedItems (mZslConsumer st) = b :: rest →
       ∃ st0 st1 oldest,
         processNewZslBuffer Q NBA client OK st = Some (OK, st1)
         ∧ st1 = findMatchesLocked st0
         ∧ (buffer <$> mZslQueue st) !! mZslQueueTail st = Some oldest
         ∧ mZslQueueHead st1 = (mZslQueueHead st + 1) mod Q
         ∧ if bool_decide ((mZslQueueHead st + 1) mod Q = mZslQueueTail st)
           then
             releasedItems (mZslConsumer st1)
               = releasedItems (mZslConsumer st) ++ [oldest]
             ∧ mZslQueueTail st1 = (mZslQueueTail st + 1) mod Q
             ∧ buffer <$> mZslQueue st1
               = <[mZslQueueHead st := b]>
                   (<[mZslQueueTail st := BufferItem_default]>
                      (buffer <$> mZslQueue st))
             ∧ mZslQueue st0
               = <[mZslQueueHead st :=
                     {| buffer := b; frame := CameraMetadata.empty |}]>
                   (<[mZslQueueTail st := ZslPair_default]> (mZslQueue st))
             ∧ mZslQueue st1 !! mZslQueueTail st = Some ZslPair_default
           else
             releasedItems (mZslConsumer st1) = releasedItems (mZslConsumer st)
             ∧ mZslQueueTail st1 = mZslQueueTail st
             ∧ buffer <$> mZslQueue st1
               = <[mZslQueueHead st := b]> (buffer <$> mZslQueue st)
             ∧ mZslQueue st0
               = <[mZslQueueHead st :=
                     {| buffer := b; frame := CameraMetadata.empty |}]>
                   (mZslQueue st)).
Proof.
  intros HQ HF HNBA Hbs. split.
  - destruct (drain_running Q F NBA client bs
                (ZslProcessor_new Q F (source bs)) (Q + 2) [])
      as (st' & Hrun & _ & Hstate & _ & Hring & Hreleased);
      [done|done|apply ZslProcessor_new_wf; lia|done
      |apply ZslProcessor_new_ring; lia|done|lia|].
    simpl in Hring, Hreleased.
    destruct (fifo_admit_fold (Q - 1) bs [] []) as [Hall Hsize];
      [lia|simpl; lia|].
    cbn [app length] in Hall, Hsize.
    destruct (foldl (fifo_admit (Q - 1)) ([], []) bs) as [w released].
    simpl in *.
    assert (length released = 2) as Hlen.
    { apply (f_equal length) in Hall. rewrite length_app in Hall. lia. }
    exists st'. split; [done|]. split; [done|]. rewrite <-Hall.
    rewrite drop_app_length' by done. rewrite take_app_length' by done.
    split; [done|]. split; [lia|]. split; [done|].
    assert (Forall (λ p, frame p = CameraMetadata.empty) (mZslQueue st'))
      as Hslots.
    { eapply (drain_no_metadata Q F NBA); [done| | | |exact Hrun].
      - apply ZslProcessor_new_wf; lia.
      - simpl. by apply Forall_replicate.
      - simpl. by apply Forall_replicate. }
    rewrite (slots_of_buffers _ Hslots).
    destruct Hring as (_ & _ & Hrot).
    rewrite rotate_fmap, Hrot, fmap_app.
    by replace (Q - length w) with 1 by lia.
  - intros st b rest Hwf Hstate Hqueued.
    destruct (processNewZslBuffer_running Q F NBA client st b rest Hwf Hstate
                Hqueued)
      as (st1 & oldest & Hrun & _ & _ & Holdest & Hbuffers & Hhead & Htail
          & _ & Hreleased).
    destruct (processNewZslBuffer_before_pass Q F NBA client st b rest Hwf
                Hstate Hqueued) as (st0 & Hrun0 & _ & _ & Hqueue0).
    assert (st1 = findMatchesLocked st0) as Hst1 by congruence.
    exists st0, st1, oldest. do 4 (split; [done|]).
    case_bool_decide as Hfull.
    + split; [done|]. split; [done|]. split; [done|]. split; [done|].
      rewrite Hst1. apply findMatchesLocked_default_slot. rewrite Hqueue0.
      destruct Hwf.
      rewrite list_lookup_insert_ne.
      { apply list_lookup_insert_eq. lia. }
      intros Heq. rewrite Heq in Hfull.
      destruct (decide (mZslQueueTail st + 1 < Q)).
      * rewrite Nat.mod_small in Hfull by done. lia.
      * replace (mZslQueueTail st + 1) with Q in Hfull by lia.
        rewrite Nat.Div0.mod_same in Hfull. lia.
    + rewrite app_nil_r in Hreleased. by split_and!.
Qed.

Lemma fifo_eviction_witness :
  ∃ st',
    drain 3 2%Z (replicate (3 + 2) (regular accepting_client))
      (ZslProcessor_new 3 6 (source four_buffers)) = Some (true, st')
    ∧ mState st' = RUNNING
    ∧ ring_holds 3 st' (drop 2 four_buffers)
    ∧ length (drop 2 four_buffers) = 3 - 1
    ∧ releasedItems (mZslConsumer st') = take 2 four_buffers
    ∧ rotate (mZslQueueTail st') (mZslQueue st')
      = ((λ b, {| buffer := b; frame := CameraMetadata.empty |})
           <$> drop 2 four_buffers)
          ++ [ZslPair_default].
Proof.
  apply (fifo_eviction 3 6 2%Z accepting_client four_buffers).
  - lia.
  - lia.
  - discriminate.
  - reflexivity.
Defined.

(** Depth 3 and four buffers: the ring ends with the last two buffers, not
    the last three, and two buffers have gone back, not one. *)
Lemma four_buffers_leave_two :
  ∃ st', four_buffers_run = Some (true, st')
    ∧ buffer <$> mZslQueue st'
      = [item 4%Z 400000000%Z; BufferItem_default; item 3%Z 300000000%Z]
    ∧ releasedItems (mZslConsumer st')
      = [item 1%Z 100000000%Z; item 2%Z 200000000%Z]
    ∧ item 2%Z 200000000%Z ∉ (buffer <$> mZslQueue st').
Proof.
  eexists. split; [vm_compute; reflexivity|].
  split; [vm_compute; reflexivity|]. split; [vm_compute; reflexivity|].
  intros Hin. vm_compute in Hin.
  repeat (apply elem_of_cons in Hin as [Heq|Hin]; [discriminate Heq|]).
  by apply elem_of_nil in Hin.
Qed.

(** An eviction on a ring whose tail slot is a complete pair: the slot is
    cleared of its metadata as well, and the record is in no slot and not
    in the history afterwards. *)
Example eviction_drops_the_record :
  ∃ st st',
    three_slots_run = Some st
    ∧ mZslQueue st !! 0
      = Some {| buffer := item 11%Z 100000000%Z;
                frame := metadata_at 100000000%Z |}
    ∧ processNewZslBuffer 4 2%Z accepting_client OK
        (queueBuffer (item 14%Z 400000000%Z) st) = Some (OK, st')
    ∧ mZslQueue st' !! 0 = Some ZslPair_default
    ∧ mZslQueueTail st' = 1
    ∧ releasedItems (mZslConsumer st') = [item 11%Z 100000000%Z]
    ∧ metadata_at 100000000%Z ∉ owned_records st'.
Proof.
  eexists _, _. split; [vm_compute; reflexivity|].
  split; [vm_compute; reflexivity|]. split; [vm_compute; reflexivity|].
  split; [vm_compute; reflexivity|]. split; [vm_compute; reflexivity|].
  split; [vm_compute; reflexivity|].
  intros Hin. vm_compute in Hin.
  repeat (apply elem_of_cons in Hin as [Heq|Hin]; [discriminate Heq|]).
  by apply elem_of_nil in Hin.
Qed.

(** * Further properties *)

(** ** The test on two timestamps *)

Lemma abs_to_int32_opp (x : Z) : abs (to_int32 (- x)) = abs (to_int32 x).
Proof.
  unfold abs. f_equal. unfold to_int32.
  pose proof (Z.div_mod (x + 2 ^ 31) (2 ^ 32)) as H1.
  pose proof (Z.div_mod (- x + 2 ^ 31) (2 ^ 32)) as H2.
  pose proof (Z.mod_pos_bound (x + 2 ^ 31) (2 ^ 32)) as B1.
  pose proof (Z.mod_pos_bound (- x + 2 ^ 31) (2 ^ 32)) as B2.
  set (r1 := ((x + 2 ^ 31) mod 2 ^ 32)%Z) in *.
  set (r2 := ((- x + 2 ^ 31) mod 2 ^ 32)%Z) in *.
  set (q1 := ((x + 2 ^ 31) / 2 ^ 32)%Z) in *.
  set (q2 := ((- x + 2 ^ 31) / 2 ^ 32)%Z) in *.
  assert (r1 + r2 = 0 ∨ r1 + r2 = 2 ^ 32)%Z as [Hz|Hs] by lia; lia.
Qed.

(** X11.  The test is symmetric in its two timestamps, over the whole range
    of 64-bit values, the wrap-around of the subtraction and the conversion
    to [int] included, and a timestamp always passes against itself. *)
Theorem timestampsMatch_sym (a b : Z) :
  timestampsMatch a b = timestampsMatch b a ∧ timestampsMatch a a = true.
Proof.
  unfold timestampsMatch, sub64. split.
  - rewrite !to_int32_wrap64.
    replace (b - a)%Z with (- (a - b))%Z by lia. rewrite abs_to_int32_opp.
    destruct (decide (a = b)), (decide (b = a)); congruence.
  - by rewrite decide_True.
Qed.

(** ** One call at a time *)

Lemma onFrameAvailable_explicit Q F frameId frame st :
  wf Q F st →
  is_Some (timestamp_of frame) →
  onFrameAvailable F frameId frame st
  = Some (if decide (mState st = RUNNING) then
            (findMatchesLocked
               (set_frames (<[mFrameListHead st := frame]> (mFrameList st))
                  ((mFrameListHead st + 1) mod F) st),
             CameraMetadata.empty)
          else (st, frame)).
Proof.
  intros [] [t Ht]. unfold onFrameAvailable, timestamp_of in *. cbv zeta.
  rewrite Ht. simpl. destruct (decide (mState st = RUNNING)) as [Hs|Hs].
  - rewrite decide_False by (by intros []).
    unfold replaceAt. by rewrite decide_True by lia.
  - by rewrite decide_True.
Qed.

Lemma findMatchesLocked_slot_ok st :
  Forall slot_ok (mZslQueue st) →
  Forall slot_ok (mZslQueue (findMatchesLocked st)).
Proof.
  intros Hok. apply Forall_lookup_2. intros i p'.
  rewrite findMatchesLocked_queue.
  intros [Hold|(p & t & Hp & Hseek & Hbuf & Ht & Hmatch)]%matchQueue_slot.
  - by eapply (Forall_lookup_1 _ _ _ _ Hok).
  - intros _. rewrite Hbuf. split; [|by exists t].
    apply andb_prop in Hseek as [_ Hts].
    apply negb_true_iff, bool_decide_eq_false in Hts. done.
Qed.

Lemma slot_ok_without_frame b : slot_ok {| buffer := b; frame := CameraMetadata.empty |}.
Proof. intros Hne. discriminate Hne. Qed.

(** What one call does to a well-formed processor. *)
Lemma step_shape Q F NBA e st :
  wf Q F st → timestamped e → NBA ≠ OK →
  ∃ st',
    step Q F NBA e st = Some st'
    ∧ wf Q F st'
    ∧ (same_core st' st
       ∨ (∃ b, e = BufferQueued b ∧ st' = queueBuffer b st)
       ∨ (∃ frameId frame,
            e = MetadataArrives frameId frame
            ∧ mState st = RUNNING
            ∧ st' = findMatchesLocked
                      (set_frames
                         (<[mFrameListHead st := frame]> (mFrameList st))
                         ((mFrameListHead st + 1) mod F) st))
       ∨ (∃ b rest,
            mState st = LOCKED
            ∧ queuedItems (mZslConsumer st) = b :: rest
            ∧ st' = set_mZslConsumer
                      {| queuedItems := rest;
                         releasedItems :=
                           releasedItems (mZslConsumer st) ++ [b] |} st)
       ∨ (∃ client b rest,
            mState st = RUNNING
            ∧ queuedItems (mZslConsumer st) = b :: rest
            ∧ processNewZslBuffer Q NBA client OK st = Some (OK, st'))).
Proof.
  intros Hwf Hts HNBA.
  destruct e as [frameId frame|b| |client err|id client upd|h];
    cbn [step timestamped] in *.
  - rewrite (onFrameAvailable_explicit Q F) by done.
    destruct (decide (mState st = RUNNING)) as [Hs|Hs]; simpl.
    + eexists. split; [done|]. split.
      * apply findMatchesLocked_wf. destruct Hwf. split; simpl;
          rewrite ?length_insert; try done. apply Nat.mod_upper_bound. lia.
      * right. right. left. by exists frameId, frame.
    + exists st. split; [done|]. split; [done|]. by left.
  - eexists. split; [done|]. split; [by destruct Hwf|]. right. left. by exists b.
  - eexists. split; [done|]. unfold onFrameAvailable_signal.
    destruct (mZslBufferAvailable st); (split; [by destruct Hwf|by left]).
  - destruct (decide (err = OK)) as [->|Herr]; last first.
    { rewrite processNewZslBuffer_error by done. simpl.
      exists st. split; [done|]. split; [done|]. by left. }
    destruct (queuedItems (mZslConsumer st)) as [|b rest] eqn:Hq.
    { rewrite processNewZslBuffer_no_buffer by done. simpl.
      exists st. split; [done|]. split; [done|]. by left. }
    destruct (mState st) eqn:Hs.
    + destruct (processNewZslBuffer_running Q F NBA client st b rest Hwf Hs Hq)
        as (st' & oldest & Hrun & Hwf' & _).
      rewrite Hrun. simpl. exists st'. split; [done|]. split; [done|].
      do 4 right. by exists client, b, rest.
    + rewrite (processNewZslBuffer_locked _ _ _ _ b rest) by done. simpl.
      eexists. split; [done|]. split; [by destruct Hwf|].
      do 3 right. left. by exists b, rest.
  - destruct client as [client|]; [|simpl].
    { destruct (pushToReprocess_outcome Q F id client upd st Hwf)
        as (res & st' & calls & -> & [[_ ->]|(_ & -> & _)]); simpl.
      - exists st. split; [done|]. split; [done|]. by left.
      - eexists. split; [done|]. split; [by destruct Hwf|]. by left. }
    exists st. split; [done|]. split; [done|]. by left.
  - destruct (onBufferReleased_result Q F h st Hwf) as (p & _ & ->). simpl.
    eexists. split; [done|]. split; [by destruct Hwf|]. by left.
Qed.

Lemma step_Some_timestamped Q F NBA e st st' :
  step Q F NBA e st = Some st' → timestamped e.
Proof.
  destruct e as [frameId frame| | | | |]; try done.
  cbn [step timestamped]. unfold onFrameAvailable, timestamp_of. cbv zeta.
  by destruct (CameraMetadata.data_i64 _ !! 0).
Qed.

Lemma run_app Q F NBA es1 es2 st :
  run Q F NBA (es1 ++ es2) st
  = st' ← run Q F NBA es1 st; run Q F NBA es2 st'.
Proof.
  revert st. induction es1 as [|e es1 IH]; intros st; simpl; [done|].
  destruct (step Q F NBA e st); simpl; [apply IH|done].
Qed.

(** A property kept by every call is kept by every sequence of calls. *)
Lemma run_invariant Q F NBA (P : ZslProcessor → Prop) :
  NBA ≠ OK →
  (∀ e st st', wf Q F st → P st → timestamped e →
               step Q F NBA e st = Some st' → P st') →
  ∀ es st st', wf Q F st → P st → run Q F NBA es st = Some st' →
               wf Q F st' ∧ P st'.
Proof.
  intros HNBA Hstep es. induction es as [|e es IH]; intros st st' Hwf HP; simpl.
  { intros [= <-]. by split. }
  destruct (step Q F NBA e st) as [st1|] eqn:He; [|done]. simpl.
  pose proof (step_Some_timestamped _ _ _ _ _ _ He) as Hts.
  destruct (step_shape Q F NBA e st Hwf Hts HNBA) as (st1' & He' & Hwf1 & _).
  rewrite He in He'. injection He' as <-.
  intros Hrun. eapply IH; [done| |done]. by apply (Hstep e st st1).
Qed.

(** ** X1: no call faults on a reachable processor *)

(** X1.  Start from a well-formed processor, for instance a new one with
    rings of positive depth, and make any sequence of calls in which the
    records that arrive carry a timestamp.  No call faults: every access
    to the two rings is in range, and the processor is well-formed at the
    end, with both cursors below their depth. *)
Theorem run_never_faults (Q F : nat) (NBA : status_t) (es : list Event)
    (st : ZslProcessor) :
  NBA ≠ OK →
  wf Q F st →
  Forall timestamped es →
  ∃ st', run Q F NBA es st = Some st' ∧ wf Q F st'.
Proof.
  intros HNBA Hwf Hes. revert st Hwf.
  induction Hes as [|e es He _ IH]; intros st Hwf; simpl.
  { by exists st. }
  destruct (step_shape Q F NBA e st Hwf He HNBA) as (st1 & -> & Hwf1 & _).
  simpl. by apply IH.
Qed.

Lemma run_never_faults_witness :
  ∃ st',
    run 3 6 2%Z
      [MetadataArrives 0%Z (metadata_at 100000000%Z);
       BufferQueued (item 1%Z 100000000%Z); BufferSignal;
       WorkerStep accepting_client OK;
       Reprocess 7%Z (Some accepting_client) (λ _, OK);
       BufferReleased (Some 1%Z)]
      (ZslProcessor_new 3 6 (source [])) = Some st'
    ∧ wf 3 6 st'.
Proof.
  apply (run_never_faults 3 6 2%Z).
  - discriminate.
  - apply ZslProcessor_new_wf; lia.
  - repeat constructor; by eexists.
Defined.

(** ** X2: what a slot can hold *)

(** X2.  On every processor reached from a new one, a slot that holds
    metadata holds a buffer whose timestamp is not 0, the metadata has a
    timestamp, and the two timestamps pass the test that the correlator
    makes (lines 394-405: equal, or the difference, as an [int], below
    1_000_000 in absolute value): there is no slot with metadata alone, and
    no pair that the test would refuse. *)
Theorem run_slots_ok (Q F : nat) (NBA : status_t) (es : list Event)
    (consumer : BufferItemConsumer) (st : ZslProcessor) :
  0 < Q → 0 < F → NBA ≠ OK →
  run Q F NBA es (ZslProcessor_new Q F consumer) = Some st →
  Forall slot_ok (mZslQueue st).
Proof.
  intros HQ HF HNBA Hrun.
  eapply (run_invariant Q F NBA (λ s, Forall slot_ok (mZslQueue s)));
    [done| |by apply ZslProcessor_new_wf| |exact Hrun].
  - intros e st0 st' Hwf Hok Hts He.
    destruct (step_shape Q F NBA e st0 Hwf Hts HNBA)
      as (st1 & He1 & _ & Hshape).
    rewrite He in He1. injection He1 as <-.
    destruct Hshape as [(Hq & _)|[(b & _ & ->)|[(id & fr & _ & _ & ->)
      |[(b & rest & _ & _ & ->)|(client & b & rest & Hs & Hq & Hrun')]]]].
    + by rewrite Hq.
    + done.
    + by apply findMatchesLocked_slot_ok.
    + done.
    + destruct (processNewZslBuffer_before_pass Q F NBA client st0 b rest Hwf
                  Hs Hq) as (st1 & Hrun1 & _ & _ & Hqueue).
      rewrite Hrun' in Hrun1. injection Hrun1 as ->.
      apply findMatchesLocked_slot_ok. rewrite Hqueue.
      apply Forall_insert; [|apply slot_ok_without_frame].
      case_bool_decide; [|done].
      apply Forall_insert; [done|]. intros Hne. discriminate Hne.
  - simpl. apply Forall_replicate. intros Hne. discriminate Hne.
Qed.

Lemma run_slots_ok_witness :
  ∃ st,
    run 3 6 2%Z example_events (ZslProcessor_new 3 6 (source [])) = Some st
    ∧ Forall slot_ok (mZslQueue st).
Proof.
  eexists. split; [vm_compute; reflexivity|].
  apply (run_slots_ok 3 6 2%Z example_events (source [])).
  - lia.
  - lia.
  - discriminate.
  - vm_compute. reflexivity.
Defined.

(** ** X3: records are never copied, over any sequence of calls *)

Lemma metadata_matches_at_most_once_aux st :
  owned_records (findMatchesLocked st) ≡ₚ owned_records st.
Proof.
  unfold owned_records.
  rewrite findMatchesLocked_queue, findMatchesLocked_frames.
  apply matchQueue_records.
Qed.

Lemma records_app l1 l2 : records (l1 ++ l2) = records l1 ++ records l2.
Proof. apply list.filter_app. Qed.

Lemma records_cons m l : records (m :: l) = records [m] ++ records l.
Proof. apply (records_app [m] l). Qed.

Lemma records_insert l i m : records (<[i := m]> l) ⊆+ records l ++ records [m].
Proof.
  revert i. induction l as [|x l IH]; intros [|i]; simpl.
  - apply submseteq_nil_l.
  - apply submseteq_nil_l.
  - rewrite (records_cons m), (records_cons x).
    rewrite (comm (++) (records [m])). apply submseteq_skips_r.
    by apply submseteq_inserts_l.
  - rewrite (records_cons x (<[i:=m]> l)), (records_cons x l).
    rewrite <-app_assoc. apply submseteq_skips_l, IH.
Qed.

Lemma records_insert_empty l i :
  records (<[i := CameraMetadata.empty]> l) ⊆+ records l.
Proof.
  etrans; [apply records_insert|]. by rewrite app_nil_r.
Qed.

Lemma owned_records_step Q F NBA e st st' :
  NBA ≠ OK → wf Q F st →
  step Q F NBA e st = Some st' →
  owned_records st' ⊆+ owned_records st ++ records (arrived [e]).
Proof.
  intros HNBA Hwf He.
  pose proof (step_Some_timestamped _ _ _ _ _ _ He) as Hts.
  destruct (step_shape Q F NBA e st Hwf Hts HNBA) as (st1 & He1 & _ & Hshape).
  rewrite He in He1. injection He1 as <-.
  unfold owned_records.
  destruct Hshape as [(Hq & _ & _ & Hf & _)|[(b & _ & ->)|[(id & fr & -> & _ & ->)
    |[(b & rest & _ & _ & ->)|(client & b & rest & Hs & Hq & Hrun')]]]].
  - rewrite Hq, Hf. by apply submseteq_inserts_r.
  - by apply submseteq_inserts_r.
  - pose proof (metadata_matches_at_most_once_aux
                  (set_frames (<[mFrameListHead st := fr]> (mFrameList st))
                     ((mFrameListHead st + 1) mod F) st)) as Hperm.
    unfold owned_records in Hperm. rewrite Hperm. simpl.
    rewrite <-app_assoc. apply submseteq_app; [done|].
    apply records_insert.
  - by apply submseteq_inserts_r.
  - destruct (processNewZslBuffer_before_pass Q F NBA client st b rest Hwf Hs
                Hq) as (st1 & Hrun1 & Hfl & _ & Hqueue).
    rewrite Hrun' in Hrun1. injection Hrun1 as ->.
    pose proof (metadata_matches_at_most_once_aux st1) as Hperm.
    unfold owned_records in Hperm. rewrite Hperm.
    apply submseteq_inserts_r. rewrite Hfl.
    apply submseteq_app; [|done]. rewrite Hqueue.
    rewrite list_fmap_insert. simpl.
    etrans; [apply records_insert_empty|].
    case_bool_decide; [|done].
    rewrite list_fmap_insert. simpl. apply records_insert_empty.
Qed.

Lemma arrived_cons e es : arrived (e :: es) = arrived [e] ++ arrived es.
Proof. unfold arrived. simpl. by rewrite app_nil_r. Qed.

Lemma queued_cons e es : queued (e :: es) = queued [e] ++ queued es.
Proof. unfold queued. simpl. by rewrite app_nil_r. Qed.

Lemma run_owned_records Q F NBA es st st' :
  NBA ≠ OK → wf Q F st →
  run Q F NBA es st = Some st' →
  owned_records st' ⊆+ owned_records st ++ records (arrived es).
Proof.
  intros HNBA. revert st. induction es as [|e es IH]; intros st Hwf;
    cbn [run].
  { intros [= <-]. by rewrite app_nil_r. }
  destruct (step Q F NBA e st) as [st1|] eqn:He; [|done].
  cbn [mbind option_bind]. intros Hrun.
  pose proof (step_Some_timestamped _ _ _ _ _ _ He) as Hts.
  destruct (step_shape Q F NBA e st Hwf Hts HNBA) as (st1' & He' & Hwf1 & _).
  rewrite He in He'. injection He' as <-.
  etrans; [by apply (IH st1)|].
  rewrite (arrived_cons e es), records_app, app_assoc.
  apply submseteq_skips_r. by eapply owned_records_step.
Qed.

(** X3.  Over any sequence of calls on a new processor, the records held by
    the pair slots and the history, counted with multiplicity, are among
    the records that arrived: a record is dropped or moved, never copied.
    When the records that arrived are pairwise different, no record is in
    two places of the processor. *)
Theorem run_records_never_copied (Q F : nat) (NBA : status_t)
    (es : list Event) (consumer : BufferItemConsumer) (st : ZslProcessor) :
  0 < Q → 0 < F → NBA ≠ OK →
  run Q F NBA es (ZslProcessor_new Q F consumer) = Some st →
  owned_records st ⊆+ records (arrived es)
  ∧ (NoDup (records (arrived es)) → NoDup (owned_records st)).
Proof.
  intros HQ HF HNBA Hrun.
  assert (owned_records st ⊆+ records (arrived es)) as Hsub.
  { apply run_owned_records in Hrun; [|done|by apply ZslProcessor_new_wf].
    revert Hrun. unfold owned_records at 2. simpl.
    rewrite fmap_replicate. simpl.
    assert (∀ n, records (replicate n CameraMetadata.empty) = []) as Hnone.
    { intros n. induction n as [|n IH]; [done|]. simpl.
      by rewrite records_cons, IH. }
    by rewrite !Hnone. }
  split; [done|]. intros Hnodup.
  apply submseteq_Permutation in Hsub as [k Hk].
  rewrite Hk in Hnodup. by apply list.NoDup_app in Hnodup as [? _].
Qed.

Lemma run_records_never_copied_witness :
  ∃ st,
    run 3 6 2%Z example_events (ZslProcessor_new 3 6 (source [])) = Some st
    ∧ owned_records st ⊆+ records (arrived example_events)
    ∧ (NoDup (records (arrived example_events)) → NoDup (owned_records st)).
Proof.
  eexists. split; [vm_compute; reflexivity|].
  apply (run_records_never_copied 3 6 2%Z example_events (source [])).
  - lia.
  - lia.
  - discriminate.
  - vm_compute. reflexivity.
Defined.

(** ** X4: every buffer is in one place *)

Lemma ring_holds_ext Q st st' w :
  buffer <$> mZslQueue st' = buffer <$> mZslQueue st →
  mZslQueueHead st' = mZslQueueHead st →
  mZslQueueTail st' = mZslQueueTail st →
  ring_holds Q st w → ring_holds Q st' w.
Proof. unfold ring_holds. by intros -> -> ->. Qed.

Lemma buffers_step Q F NBA e st st' w :
  2 ≤ Q → NBA ≠ OK → wf Q F st →
  ring_holds Q st w →
  step Q F NBA e st = Some st' →
  ∃ w',
    ring_holds Q st' w'
    ∧ releasedItems (mZslConsumer st') ++ w' ++ queuedItems (mZslConsumer st')
      ≡ₚ (releasedItems (mZslConsumer st) ++ w
            ++ queuedItems (mZslConsumer st)) ++ queued [e].
Proof.
  intros HQ HNBA Hwf Hring He.
  assert ((∃ b, e = BufferQueued b) ∨ queued [e] = []) as [[b ->]|Hnone]
    by (destruct e; eauto).
  { injection He as <-. exists w. split; [done|]. simpl.
    by rewrite <-!app_assoc. }
  rewrite Hnone, app_nil_r.
  pose proof (step_Some_timestamped _ _ _ _ _ _ He) as Hts.
  destruct (step_shape Q F NBA e st Hwf Hts HNBA) as (st1 & He1 & _ & Hshape).
  rewrite He in He1. injection He1 as <-.
  destruct Hshape as [(Hq & Hh & Ht & _ & _ & Hc)|[(b & -> & _)
    |[(id & fr & -> & _ & ->)|[(b & rest & _ & Hqd & ->)
    |(client & b & rest & Hs & Hqd & Hrun')]]]].
  - exists w. split; [|by rewrite Hc].
    apply (ring_holds_ext Q st); [by rewrite Hq|done..].
  - discriminate Hnone.
  - exists w.
    destruct (findMatchesLocked_others
                (set_frames (<[mFrameListHead st := fr]> (mFrameList st))
                   ((mFrameListHead st + 1) mod F) st))
      as (_ & -> & Hh & Ht & _).
    split; [|done].
    apply (ring_holds_ext Q st); [|done..].
    by rewrite findMatchesLocked_buffers.
  - exists w. split; [done|]. simpl. rewrite Hqd.
    rewrite <-!app_assoc. apply Permutation_app_head.
    rewrite (Permutation_middle w rest b). done.
  - destruct (processNewZslBuffer_fifo Q F NBA client st b rest w HQ Hwf Hs Hqd
                Hring)
      as (st1 & Hrun1 & _ & _ & Hrest & Hring1 & Hrel).
    rewrite Hrun' in Hrun1. injection Hrun1 as <-.
    eexists. split; [exact Hring1|]. rewrite Hrel, Hrest, Hqd.
    destruct (decide (length w = Q - 1)) as [Hfull|Hroom].
    + destruct w as [|x w0]; [simpl in Hfull; lia|].
      rewrite fifo_admit_full by done. simpl. by rewrite <-!app_assoc.
    + rewrite fifo_admit_room by done. simpl. by rewrite <-!app_assoc.
Qed.

(** X4.  Take a new processor with a ring of depth at least 2 and any
    sequence of calls.  At the end the ring holds a window of fewer than
    [Q] buffers from the tail to the head, its other slots are cleared,
    and the buffers given back, the buffers of the window and the buffers
    still waiting at the source are, together and with multiplicity,
    exactly the buffers that were queued at the source: no buffer is lost,
    none is given back twice, none is given back while it stays in the
    ring. *)
Theorem run_buffers_conserved (Q F : nat) (NBA : status_t) (es : list Event)
    (bs : list BufferItem) (st : ZslProcessor) :
  2 ≤ Q → 0 < F → NBA ≠ OK →
  run Q F NBA es (ZslProcessor_new Q F (source bs)) = Some st →
  ∃ w,
    ring_holds Q st w
    ∧ releasedItems (mZslConsumer st) ++ w ++ queuedItems (mZslConsumer st)
      ≡ₚ bs ++ queued es.
Proof.
  intros HQ HF HNBA.
  assert (∀ es st0 w0 st,
    wf Q F st0 → ring_holds Q st0 w0 →
    run Q F NBA es st0 = Some st →
    ∃ w,
      ring_holds Q st w
      ∧ releasedItems (mZslConsumer st) ++ w ++ queuedItems (mZslConsumer st)
        ≡ₚ (releasedItems (mZslConsumer st0) ++ w0
              ++ queuedItems (mZslConsumer st0)) ++ queued es) as Hgen.
  { clear es bs st. intros es. induction es as [|e es IH];
      intros st0 w0 st Hwf Hring; cbn [run].
    { intros [= <-]. exists w0. split; [done|]. by rewrite app_nil_r. }
    destruct (step Q F NBA e st0) as [st1|] eqn:He; [|done].
    cbn [mbind option_bind]. intros Hrun.
    pose proof (step_Some_timestamped _ _ _ _ _ _ He) as Hts.
    destruct (step_shape Q F NBA e st0 Hwf Hts HNBA)
      as (st1' & He' & Hwf1 & _).
    rewrite He in He'. injection He' as <-.
    destruct (buffers_step Q F NBA e st0 st1 w0 HQ HNBA Hwf Hring He)
      as (w1 & Hring1 & Hperm1).
    destruct (IH st1 w1 st Hwf1 Hring1 Hrun) as (w & Hring' & Hperm).
    exists w. split; [done|].
    rewrite Hperm, Hperm1, (queued_cons e es). by rewrite <-!app_assoc. }
  intros Hrun.
  destruct (Hgen es _ [] st (ZslProcessor_new_wf Q F (source bs) ltac:(lia) HF)
              (ZslProcessor_new_ring Q F (source bs) ltac:(lia)) Hrun)
    as (w & Hring & Hperm).
  exists w. split; [done|]. by rewrite Hperm.
Qed.

Lemma run_buffers_conserved_witness :
  ∃ st,
    run 3 6 2%Z example_events (ZslProcessor_new 3 6 (source [])) = Some st
    ∧ ∃ w,
        ring_holds 3 st w
        ∧ releasedItems (mZslConsumer st) ++ w ++ queuedItems (mZslConsumer st)
          ≡ₚ [] ++ queued example_events.
Proof.
  eexists. split; [vm_compute; reflexivity|].
  apply (run_buffers_conserved 3 6 2%Z example_events [])
  ; [lia|lia|discriminate|vm_compute; reflexivity].
Defined.

(** ** X5: one pass of the correlator is enough *)

Lemma thinned_refl f : thinned f f.
Proof. apply Forall2_same_length_lookup. split; [done|]. naive_solver. Qed.

Lemma thinned_trans g f h : thinned g f → thinned f h → thinned g h.
Proof.
  unfold thinned. intros Hgf Hfh.
  revert h Hfh. induction Hgf as [|a b g f Hab _ IH]; intros h Hfh.
  - by inversion Hfh.
  - inversion Hfh as [|b' c f' h' Hbc Hfh']; subst.
    constructor; [|by apply IH].
    destruct Hab as [-> | ->]; [by left|done].
Qed.

Lemma thinned_insert_empty f j : thinned (<[j := CameraMetadata.empty]> f) f.
Proof.
  revert j. induction f as [|x f IH]; intros [|j]; simpl.
  - constructor.
  - constructor.
  - constructor; [by left|apply thinned_refl].
  - constructor; [by right|apply IH].
Qed.

Lemma scanFrameList_None_thinned t_b g f :
  thinned g f → scanFrameList t_b f = None → scanFrameList t_b g = None.
Proof.
  rewrite !scanFrameList_None. intros Hgf.
  induction Hgf as [|a b g f Hab _ IH]; [done|].
  intros [Hb Hf]%Forall_cons_1. constructor; [|by apply IH].
  destruct Hab as [-> | ->]; [apply frameMatches_empty|done].
Qed.

Lemma matchEntry_thinned p f : thinned (matchEntry p f).2 f.
Proof.
  unfold matchEntry. destruct (seeking p); [|apply thinned_refl].
  destruct (scanFrameList _ f) as [[m f']|] eqn:Hscan; [|apply thinned_refl].
  apply scanFrameList_Some in Hscan as (j & _ & _ & -> & _).
  apply thinned_insert_empty.
Qed.

Lemma matchQueue_thinned q f : thinned (matchQueue q f).2 f.
Proof.
  revert f. induction q as [|p q IH]; intros f; simpl; [apply thinned_refl|].
  pose proof (matchEntry_thinned p f) as Hp.
  destruct (matchEntry p f) as [p1 f1]. specialize (IH f1).
  destruct (matchQueue q f1) as [q' f']. simpl in *.
  by eapply thinned_trans.
Qed.

Lemma matchEntry_stable p f g :
  thinned g (matchEntry p f).2 →
  matchEntry (matchEntry p f).1 g = ((matchEntry p f).1, g).
Proof.
  destruct (matchEntry p f) as [p1 f1] eqn:Hme. simpl.
  revert Hme. unfold matchEntry at 1. destruct (seeking p) eqn:Hseek.
  - destruct (scanFrameList _ f) as [[m f']|] eqn:Hscan.
    + intros [= <- <-] _. apply matchEntry_not_seeking. unfold seeking. simpl.
      apply scanFrameList_Some in Hscan as (j & _ & Hm & _).
      apply frameMatches_has_timestamp in Hm as [-> _]. done.
    + intros [= <- <-] Hg. unfold matchEntry. rewrite Hseek.
      by rewrite (scanFrameList_None_thinned _ g f Hg Hscan).
  - intros [= <- <-] _. by apply matchEntry_not_seeking.
Qed.

Lemma matchQueue_stable q f g :
  thinned g (matchQueue q f).2 →
  matchQueue (matchQueue q f).1 g = ((matchQueue q f).1, g).
Proof.
  revert f. induction q as [|p q IH]; intros f; simpl; [done|].
  pose proof (matchEntry_stable p f g) as Hp.
  destruct (matchEntry p f) as [p1 f1]. specialize (IH f1).
  pose proof (matchQueue_thinned q f1) as Hq.
  destruct (matchQueue q f1) as [q' f']. simpl in *.
  intros Hg. rewrite Hp by (by eapply thinned_trans). by rewrite IH.
Qed.

(** X5.  A pass of the correlator leaves nothing for a second pass: run
    again at once, [findMatchesLocked] changes nothing.  The same holds
    after more records of the history have been emptied: a slot that found
    no record cannot find one among fewer. *)
Theorem findMatchesLocked_idempotent (st : ZslProcessor) :
  findMatchesLocked (findMatchesLocked st) = findMatchesLocked st
  ∧ ∀ g h,
      thinned g (mFrameList (findMatchesLocked st)) →
      findMatchesLocked (set_frames g h (findMatchesLocked st))
      = set_frames g h (findMatchesLocked st).
Proof.
  assert (∀ g h,
      thinned g (mFrameList (findMatchesLocked st)) →
      findMatchesLocked (set_frames g h (findMatchesLocked st))
      = set_frames g h (findMatchesLocked st)) as Hgen.
  { intros g h. rewrite findMatchesLocked_frames. intros Hg.
    unfold findMatchesLocked at 1. simpl. rewrite findMatchesLocked_queue.
    rewrite (matchQueue_stable _ _ _ Hg).
    unfold findMatchesLocked. by destruct (matchQueue _ _). }
  split; [|done].
  specialize (Hgen (mFrameList (findMatchesLocked st))
                (mFrameListHead (findMatchesLocked st)) (thinned_refl _)).
  assert (∀ s, set_frames (mFrameList s) (mFrameListHead s) s = s) as Heta
    by (by intros []).
  by rewrite Heta in Hgen.
Qed.


Lemma findMatchesLocked_idempotent_witness :
  let st := findMatchesLocked second_slot_complete in
  let g := replicate 8 CameraMetadata.empty in
  thinned g (mFrameList st)
  ∧ findMatchesLocked (set_frames g 0 st) = set_frames g 0 st.
Proof.
  intros st g.
  assert (thinned g (mFrameList st)) as H.
  { vm_compute. repeat (constructor; [left; reflexivity|]). constructor. }
  split; [exact H|].
  exact (proj2 (findMatchesLocked_idempotent second_slot_complete) g 0 H).
Defined.

(** ** X6: the history keeps the latest records *)

Lemma findMatchesLocked_nothing_waiting st :
  Forall (λ p, seeking p = false) (mZslQueue st) → findMatchesLocked st = st.
Proof.
  intros Hnone. unfold findMatchesLocked.
  rewrite matchQueue_not_seeking by done. by destruct st.
Qed.

(** Writing at the write index and advancing it, read from the new write
    index: the oldest record is gone and the new one is last. *)
Lemma rotate_write (l : list CameraMetadata.t) (h : nat) (m : CameraMetadata.t) :
  h < length l →
  rotate ((h + 1) mod length l) (<[h := m]> l)
  = drop 1 (rotate h l ++ [m]).
Proof.
  intros Hh.
  destruct (rotate h l) as [|x r] eqn:Hrot.
  { apply (f_equal length) in Hrot. rewrite length_rotate in Hrot.
    simpl in Hrot. lia. }
  rewrite <-(length_insert l h m). simpl. rewrite drop_0.
  apply (rotate_next _ _ m); [by rewrite length_insert|].
  rewrite <-(rotate_nat_add_0 h (length l)) at 2 by done.
  rewrite rotate_insert_l by lia. by rewrite Hrot.
Qed.

(** X6.  While RUNNING and with no slot waiting for metadata, the records
    that arrive go round the history: after the records [ms], reading the
    history from the write index gives the old content followed by [ms],
    less its first [length ms] records.  Once [F] records or more have
    arrived the history is exactly the latest [F] of them, oldest at the
    write index, and every older record has been overwritten. *)
Theorem history_keeps_latest (Q F : nat) (NBA : status_t) (frameId : Z)
    (ms : list CameraMetadata.t) (st : ZslProcessor) :
  wf Q F st →
  mState st = RUNNING →
  Forall (λ p, seeking p = false) (mZslQueue st) →
  Forall (λ m, is_Some (timestamp_of m)) ms →
  ∃ st',
    run Q F NBA (MetadataArrives frameId <$> ms) st = Some st'
    ∧ rotate (mFrameListHead st') (mFrameList st')
      = drop (length ms) (rotate (mFrameListHead st) (mFrameList st) ++ ms)
    ∧ (F ≤ length ms →
       rotate (mFrameListHead st') (mFrameList st')
       = drop (length ms - F) ms)
    ∧ mZslQueue st' = mZslQueue st.
Proof.
  intros Hwf Hstate Hnone Hms.
  assert (∃ st',
    run Q F NBA (MetadataArrives frameId <$> ms) st = Some st'
    ∧ rotate (mFrameListHead st') (mFrameList st')
      = drop (length ms) (rotate (mFrameListHead st) (mFrameList st) ++ ms)
    ∧ mZslQueue st' = mZslQueue st) as (st' & Hrun & Hrot & Hqueue).
  { revert st Hwf Hstate Hnone.
    induction Hms as [|m ms Hm _ IH]; intros st Hwf Hstate Hnone.
    { exists st. simpl. by rewrite app_nil_r. }
    cbn [fmap list_fmap run step].
    rewrite (onFrameAvailable_explicit Q F) by done.
    rewrite decide_True by done. cbn [fmap option_fmap option_map fst].
    rewrite findMatchesLocked_nothing_waiting by done.
    cbn [mbind option_bind].
    set (st1 := set_frames _ _ st).
    destruct (IH st1) as (st' & Hrun & Hrot & Hqueue).
    { destruct Hwf. split; simpl; rewrite ?length_insert; try done.
      apply Nat.mod_upper_bound. lia. }
    { done. }
    { done. }
    exists st'. split; [done|]. split; [|done].
    rewrite Hrot. unfold st1. simpl. destruct Hwf.
    rewrite <-wf_frames_size0 at 1. rewrite rotate_write by lia.
    rewrite <-drop_app_le by (rewrite length_app; simpl; lia).
    by rewrite drop_drop, <-app_assoc. }
  exists st'. split; [done|]. split; [done|]. split; [|done].
  intros Hlen. rewrite Hrot. destruct Hwf.
  rewrite drop_app_ge by (rewrite length_rotate; lia).
  by rewrite length_rotate, wf_frames_size0.
Qed.

Lemma history_keeps_latest_witness :
  ∃ st',
    run 3 2 2%Z
      (MetadataArrives 0%Z <$>
         [metadata_at 100000000%Z; metadata_at 200000000%Z;
          metadata_at 300000000%Z])
      (ZslProcessor_new 3 2 (source [])) = Some st'
    ∧ rotate (mFrameListHead st') (mFrameList st')
      = [metadata_at 200000000%Z; metadata_at 300000000%Z].
Proof.
  destruct (history_keeps_latest 3 2 2%Z 0%Z
              [metadata_at 100000000%Z; metadata_at 200000000%Z;
               metadata_at 300000000%Z]
              (ZslProcessor_new 3 2 (source [])))
    as (st' & Hrun & _ & Hlatest & _).
  - apply ZslProcessor_new_wf; lia.
  - reflexivity.
  - repeat constructor.
  - repeat constructor; by eexists.
  - exists st'. split; [exact Hrun|]. apply Hlatest. simpl. lia.
Defined.

(** ** X7: the worker's loop *)

Lemma processNewZslBuffer_keeps Q NBA client err st res st' :
  processNewZslBuffer Q NBA client err st = Some (res, st') →
  mState st' = mState st
  ∧ mZslBufferAvailable st' = mZslBufferAvailable st.
Proof.
  unfold processNewZslBuffer.
  destruct (acquireBuffer NBA err (mZslConsumer st)) as [[r it] c]. cbv zeta.
  case_decide; [by intros [= <- <-]|].
  case_decide; [by intros [= <- <-]|].
  set (st0 := set_mZslConsumer c st).
  destruct (if decide _ then _ else _) as [st1|] eqn:Hevict; [|done].
  assert (mState st1 = mState st
          ∧ mZslBufferAvailable st1 = mZslBufferAvailable st) as [Hs Hb].
  { revert Hevict. case_decide; [|by intros [= <-]].
    destruct (mZslQueue st0 !! mZslQueueTail st0); [|done]. simpl.
    destruct (replaceAt _ _ _); simpl; [|done]. by intros [= <-]. }
  simpl. destruct (mZslQueue st1 !! mZslQueueHead st1); [|done]. simpl.
  destruct (replaceAt (mZslQueueHead st1) _ _) as [q|]; simpl; [|done].
  intros [= <- <-].
  destruct (findMatchesLocked_others
              (set_queue q ((mZslQueueHead st1 + 1) mod Q) (mZslQueueTail st1)
                 st1)) as (-> & _ & _ & _ & _ & _ & ->).
  done.
Qed.

(** The loop of lines 307-311 on a well-formed processor, whatever the
    surroundings answer, when the list of turns is longer than the source:
    the loop ends at some turn [k], after it has taken the first [k]
    buffers of the source, one on each turn before.  It ends with [false]
    exactly when the client is gone at turn [k]; when it ends with [true]
    and buffers are left, the acquisition of turn [k] failed. *)
Lemma drain_any Q F NBA turns st :
  NBA ≠ OK → wf Q F st →
  length (queuedItems (mZslConsumer st)) < length turns →
  ∃ r st' k turn,
    drain Q NBA turns st = Some (r, st')
    ∧ wf Q F st'
    ∧ mState st' = mState st
    ∧ mZslBufferAvailable st' = mZslBufferAvailable st
    ∧ queuedItems (mZslConsumer st') = drop k (queuedItems (mZslConsumer st))
    ∧ turns !! k = Some turn
    ∧ (r = false ↔ turn_client turn = None)
    ∧ (r = true → queuedItems (mZslConsumer st') ≠ [] → turn_error turn ≠ OK).
Proof.
  intros HNBA. revert st.
  induction turns as [|turn turns IH]; intros st Hwf Hlen;
    [simpl in Hlen; lia|].
  cbn [drain]. destruct (turn_client turn) as [c|] eqn:Hc; last first.
  { exists false, st, 0, turn. by rewrite drop_0. }
  destruct (processNewZslBuffer_cases Q F NBA c (turn_error turn) st Hwf HNBA)
    as (res & st1 & Hrun & Hwf1 & Hs1 & Hcases).
  destruct (processNewZslBuffer_keeps _ _ _ _ _ _ _ Hrun) as [_ Hb1].
  rewrite Hrun. cbn [mbind option_bind].
  destruct Hcases as [(Hres & -> & Hwhy)|(-> & Herr & b & rest & Hq & Hq1 & _)].
  - rewrite decide_False by done. exists true, st, 0, turn.
    rewrite drop_0, Hc. split_and!; try done.
    intros _ Hleft. by destruct Hwhy.
  - rewrite decide_True by done.
    destruct (IH st1 Hwf1) as (r & st' & k & t & Hdrain & Hwf' & Hs' & Hb' & Hq'
                               & Hk & Hr & He).
    { rewrite Hq1. rewrite Hq in Hlen. simpl in Hlen. lia. }
    exists r, st', (S k), t. rewrite Hq. rewrite Hq1 in Hq'.
    split_and!; try done; congruence.
Qed.

(** X7.  One turn of [threadLoop] on a well-formed processor whose
    consumer exists.  If no signal has come and the wait times out, it
    returns [true] and changes nothing.  Otherwise the flag of the signal
    is cleared and the loop of lines 307-311 runs.  When the client is gone
    at its first turn it returns [false] (the thread ends) and no buffer
    has been taken; when the first acquisition fails it returns [true] and
    the source keeps its buffers.  In general the loop ends at some turn
    [k], having taken the first [k] buffers of the source; it returns
    [false] exactly when the client is gone at that turn, and when it
    returns [true] with buffers left in the source the acquisition of that
    turn failed; the state is as before.  In particular, when the client
    stays and no acquisition fails, it returns [true] with the source
    emptied.  Signals do not add up: a second signal before the turn
    changes nothing. *)
Theorem threadLoop_outcomes (Q F : nat) (NBA : status_t) (timedOut : bool)
    (turns : list Turn) (st : ZslProcessor) :
  wf Q F st →
  NBA ≠ OK →
  (mZslBufferAvailable st = false →
   threadLoop Q NBA true turns st = Some (true, st))
  ∧ (mZslBufferAvailable st = true ∨ timedOut = false →
     (∀ turn,
        turns !! 0 = Some turn → turn_client turn = None →
        threadLoop Q NBA timedOut turns st
        = Some (false, set_mZslBufferAvailable false st))
     ∧ (∀ turn,
          turns !! 0 = Some turn →
          is_Some (turn_client turn) → turn_error turn ≠ OK →
          threadLoop Q NBA timedOut turns st
          = Some (true, set_mZslBufferAvailable false st))
     ∧ (length (queuedItems (mZslConsumer st)) < length turns →
        ∃ r st' k turn,
          threadLoop Q NBA timedOut turns st = Some (r, st')
          ∧ wf Q F st'
          ∧ mZslBufferAvailable st' = false
          ∧ mState st' = mState st
          ∧ queuedItems (mZslConsumer st')
            = drop k (queuedItems (mZslConsumer st))
          ∧ turns !! k = Some turn
          ∧ (r = false ↔ turn_client turn = None)
          ∧ (r = true → queuedItems (mZslConsumer st') ≠ [] →
             turn_error turn ≠ OK)
          ∧ (Forall (λ t, is_Some (turn_client t) ∧ turn_error t = OK) turns →
             r = true ∧ queuedItems (mZslConsumer st') = [])))
  ∧ mZslBufferAvailable (onFrameAvailable_signal st) = true
  ∧ onFrameAvailable_signal (onFrameAvailable_signal st)
    = onFrameAvailable_signal st.
Proof.
  intros Hwf HNBA. unfold threadLoop. split_and!.
  - by intros ->.
  - intros Hgo.
    assert (negb (mZslBufferAvailable st) && timedOut = false) as ->
      by (destruct Hgo as [-> | ->]; [done|apply andb_false_r]).
    split_and!.
    + intros turn Hturn Hgone. destruct turns as [|t turns]; [done|].
      injection Hturn as ->. cbn [drain]. by rewrite Hgone.
    + intros turn Hturn [c Hc] Herr. destruct turns as [|t turns]; [done|].
      injection Hturn as ->. cbn [drain]. rewrite Hc.
      rewrite processNewZslBuffer_error by done. cbn [mbind option_bind].
      by rewrite decide_False.
    + intros Hlen.
      destruct (drain_any Q F NBA turns (set_mZslBufferAvailable false st))
        as (r & st' & k & turn & Hdrain & Hwf' & Hs & Hb & Hq & Hk & Hr & He);
        [done|by destruct Hwf|done|].
      exists r, st', k, turn. split_and!; try done.
      intros Hall.
      destruct (Forall_lookup_1 _ _ _ _ Hall Hk) as [[c Hc] Hok].
      assert (r = true) as ->.
      { destruct r; [done|]. destruct Hr as [Hr _]. rewrite Hr in Hc; done. }
      split; [done|].
      destruct (queuedItems (mZslConsumer st')) as [|b rest] eqn:Hleft; [done|].
      destruct He; done.
  - unfold onFrameAvailable_signal.
    by destruct (mZslBufferAvailable st) eqn:Hb.
  - unfold onFrameAvailable_signal.
    destruct (mZslBufferAvailable st) eqn:Hb; [by rewrite Hb|done].
Qed.

Lemma threadLoop_outcomes_witness :
  let turns :=
    [regular accepting_client; regular accepting_client;
     {| turn_client := Some accepting_client; turn_error := BAD_VALUE |};
     regular accepting_client; regular accepting_client] in
  ∃ st',
    threadLoop 3 2%Z false turns (ZslProcessor_new 3 6 (source four_buffers))
      = Some (true, st')
    ∧ queuedItems (mZslConsumer st') = drop 2 four_buffers
    ∧ ∃ r st'' k turn,
        threadLoop 3 2%Z false turns
          (ZslProcessor_new 3 6 (source four_buffers)) = Some (r, st'')
        ∧ wf 3 6 st''
        ∧ mZslBufferAvailable st'' = false
        ∧ mState st'' = RUNNING
        ∧ queuedItems (mZslConsumer st'') = drop k four_buffers
        ∧ turns !! k = Some turn
        ∧ (r = false ↔ turn_client turn = None)
        ∧ (r = true → queuedItems (mZslConsumer st'') ≠ [] →
           turn_error turn ≠ OK).
Proof.
  intros turns.
  eexists. split; [vm_compute; reflexivity|]. split; [vm_compute; reflexivity|].
  destruct (threadLoop_outcomes 3 6 2%Z false turns
              (ZslProcessor_new 3 6 (source four_buffers)))
    as (_ & Hloop & _).
  - apply ZslProcessor_new_wf; lia.
  - discriminate.
  - destruct Hloop as (_ & _ & Hany); [by right|].
    destruct Hany as (r & st'' & k & turn & H1 & H2 & H3 & H4 & H5 & H6 & H7
                      & H8 & _); [simpl; lia|].
    exists r, st'', k, turn. split_and!; assumption.
Defined.

(** ** X8: which pair the hand-off selects, and what it sends *)

Lemma find_set_entry_eq tag d m :
  CameraMetadata.find tag (CameraMetadata.set_entry tag d m)
  = {| CameraMetadata.count := length d; CameraMetadata.data_i64 := d |}.
Proof.
  induction m as [|[tg d'] m IH]; simpl.
  - by rewrite decide_True.
  - destruct (decide (tg = tag)) as [->|Hne]; simpl.
    + by rewrite decide_True.
    + by rewrite decide_False.
Qed.

Lemma find_set_entry_ne tag tag' d m :
  tag' ≠ tag →
  CameraMetadata.find tag' (CameraMetadata.set_entry tag d m)
  = CameraMetadata.find tag' m.
Proof.
  intros Hne. induction m as [|[tg d'] m IH]; simpl.
  - by rewrite decide_False.
  - destruct (decide (tg = tag)) as [->|Hne']; simpl.
    + by rewrite !decide_False.
    + destruct (decide (tg = tag')); [done|apply IH].
Qed.

Lemma set_entry_nonempty tag d m :
  CameraMetadata.isEmpty (CameraMetadata.set_entry tag d m) = false.
Proof. destruct m as [|[tg d'] m]; simpl; [done|]. by case_decide. Qed.

Lemma rotate_nat_add_inj base k n len :
  k < len → n < len →
  rotate_nat_add base k len = rotate_nat_add base n len → k = n.
Proof.
  intros Hk Hn Heq.
  rewrite <-(rotate_nat_sub_add base len k), <-(rotate_nat_sub_add base len n)
    by done.
  by rewrite Heq.
Qed.

Lemma rotate_nat_add_succ base k len :
  0 < len →
  (rotate_nat_add base k len + 1) mod len = rotate_nat_add base (S k) len.
Proof. intros. rewrite Nat.add_1_r. symmetry. by apply rotate_nat_add_S. Qed.

(** The loop of lines 240-243 passes the slots without metadata and stops
    after the first slot that has some; [index] is then one slot further. *)
Lemma scanQueue_selects Q queue head tail n d sel :
  0 < Q → length queue = Q → tail < Q → n < Q →
  head = rotate_nat_add tail n Q →
  d < n →
  (∀ j p, j < d → queue !! rotate_nat_add tail j Q = Some p →
          frame p = CameraMetadata.empty) →
  queue !! rotate_nat_add tail d Q = Some sel →
  CameraMetadata.isEmpty (frame sel) = false →
  scanQueue Q Q queue head CameraMetadata.empty tail
  = Some (frame sel, rotate_nat_add tail (S d) Q).
Proof.
  intros HQ Hlen Htail Hn -> Hd Hbefore Hsel Hne.
  assert (∀ fuel k, k ≤ d → d - k < fuel →
    scanQueue Q fuel queue (rotate_nat_add tail n Q) CameraMetadata.empty
      (rotate_nat_add tail k Q)
    = Some (frame sel, rotate_nat_add tail (S d) Q)) as Hgen.
  { induction fuel as [|fuel IH]; intros k Hk Hfuel; [lia|]. simpl.
    rewrite bool_decide_eq_true_2; last first.
    { intros Heq%rotate_nat_add_inj; lia. }
    destruct (decide (k = d)) as [->|Hkd].
    - rewrite Hsel. simpl. rewrite rotate_nat_add_succ by done.
      destruct fuel; simpl; by rewrite Hne.
    - destruct (lookup_lt_is_Some_2 queue (rotate_nat_add tail k Q))
        as [p Hp]; [rewrite Hlen; by apply rotate_nat_add_lt|].
      rewrite Hp. simpl. rewrite (Hbefore k p) by (done || lia).
      rewrite rotate_nat_add_succ by done.
      apply IH; lia. }
  rewrite <-(rotate_nat_add_0 tail Q) at 2 by done. apply Hgen; lia.
Qed.

(** X8.  The ring holds [n] slots from the tail to the head; the first [d]
    of them hold no metadata and the next one, [sel], holds some.  With a
    live client, updates that succeed and a device that accepts the two
    calls, [pushToReprocess] returns [OK] and locks the processor; the
    capture request is built from the metadata of [sel], the oldest
    complete pair: it keeps its sensor timestamp and carries the request
    id, the reprocess type and the two streams; the handle given to the
    buffer sink is read one slot after [sel]. *)
Theorem pushToReprocess_selects (Q F : nat) (requestId : Z)
    (client : Camera2Client) (updateRes : Tag → status_t) (st : ZslProcessor)
    (n d : nat) (sel next : ZslPair) :
  wf Q F st →
  n < Q → mZslQueueHead st = rotate_nat_add (mZslQueueTail st) n Q →
  d < n →
  (∀ j p, j < d →
     mZslQueue st !! rotate_nat_add (mZslQueueTail st) j Q = Some p →
     frame p = CameraMetadata.empty) →
  mZslQueue st !! rotate_nat_add (mZslQueueTail st) d Q = Some sel →
  CameraMetadata.isEmpty (frame sel) = false →
  mZslQueue st !! rotate_nat_add (mZslQueueTail st) (S d) Q = Some next →
  (∀ tag, updateRes tag = OK) →
  (∀ streamId handle,
     pushReprocessBuffer (getCameraDevice client) streamId handle = OK) →
  (∀ request, capture (getCameraDevice client) request = OK) →
  let request :=
    reprocess_request requestId (mZslReprocessStreamId st)
      (getCaptureStreamId client) (frame sel) in
  pushToReprocess Q requestId (Some client) updateRes st
  = Some (OK, set_mState LOCKED st,
          [PushReprocessBuffer (mZslReprocessStreamId st)
             (handle_of (buffer next));
           Capture request])
  ∧ timestamp_of request = timestamp_of (frame sel)
  ∧ CameraMetadata.data_i64 (CameraMetadata.find ANDROID_REQUEST_ID request)
    = [requestId]
  ∧ CameraMetadata.data_i64 (CameraMetadata.find ANDROID_REQUEST_TYPE request)
    = [ANDROID_REQUEST_TYPE_REPROCESS]
  ∧ CameraMetadata.data_i64
      (CameraMetadata.find ANDROID_REQUEST_INPUT_STREAMS request)
    = [to_uint8 (mZslReprocessStreamId st)]
  ∧ CameraMetadata.data_i64
      (CameraMetadata.find ANDROID_REQUEST_OUTPUT_STREAMS request)
    = [to_uint8 (getCaptureStreamId client)].
Proof.
  intros Hwf Hn Hhead Hd Hbefore Hsel Hne Hnext Hupd Hpush Hcapture request.
  split.
  - destruct Hwf. unfold pushToReprocess.
    rewrite decide_True; last first.
    { rewrite Hhead.
      rewrite <-(rotate_nat_add_0 (mZslQueueTail st) Q) at 1 by done.
      intros Heq%rotate_nat_add_inj; lia. }
    rewrite (scanQueue_selects Q _ _ _ n d sel) by done.
    cbn [mbind option_bind]. rewrite Hne, Hnext. cbn [mbind option_bind].
    cbv zeta. rewrite !Hupd. unfold CameraMetadata.update.
    assert (decide (OK = OK) = left eq_refl) as -> by done.
    destruct (decide (OK ≠ OK)) as [H|_]; [by destruct H|].
    rewrite Hpush.
    destruct (decide (OK ≠ OK)) as [H|_]; [by destruct H|].
    rewrite Hcapture.
    destruct (decide (OK ≠ OK)) as [H|_]; [by destruct H|]. done.
  - unfold request, reprocess_request, timestamp_of.
    split_and!;
      repeat (rewrite find_set_entry_eq || rewrite find_set_entry_ne by done);
      done.
Qed.

Lemma pushToReprocess_selects_witness :
  pushToReprocess 4 7%Z (Some accepting_client) (λ _, OK) second_slot_complete
  = Some (OK, set_mState LOCKED second_slot_complete,
          [PushReprocessBuffer NO_STREAM None;
           Capture
             (reprocess_request 7%Z NO_STREAM 2%Z (metadata_at 200000000%Z))]).
Proof.
  apply (pushToReprocess_selects 4 8 7%Z accepting_client (λ _, OK)
           second_slot_complete 2 1
           {| buffer := item 12%Z 200000000%Z;
              frame := metadata_at 200000000%Z |} ZslPair_default).
  - split; simpl; lia.
  - lia.
  - reflexivity.
  - lia.
  - intros [|j] p Hj; [intros [= <-]; reflexivity|lia].
  - reflexivity.
  - reflexivity.
  - reflexivity.
  - reflexivity.
  - reflexivity.
  - reflexivity.
Defined.

(** ** X9: the hand-off takes nothing out of the ring *)




(** ** X10: the handle that comes back *)

(** X10.  The tail slot holds a complete pair and the slot after it holds
    another buffer, or none.  After a hand-off to a device that accepts,
    [onBufferReleased] compares the handle it is given with the one of the
    tail slot, not with the one that was sent: the handle that was sent is
    logged as a mismatch, the handle of the buffer at the tail is not; the
    state is RUNNING afterwards in both cases. *)
Theorem release_of_sent_handle_is_logged (Q F : nat) (requestId : Z)
    (st : ZslProcessor) (p next : ZslPair) :
  wf Q F st →
  mZslQueueTail st ≠ mZslQueueHead st →
  mZslQueue st !! mZslQueueTail st = Some p →
  CameraMetadata.isEmpty (frame p) = false →
  mZslQueue st !! ((mZslQueueTail st + 1) mod Q) = Some next →
  handle_of (buffer next) ≠ handle_of (buffer p) →
  ∃ st1 request,
    pushToReprocess Q requestId (Some accepting_client) (λ _, OK) st
      = Some (OK, st1,
              [PushReprocessBuffer (mZslReprocessStreamId st)
                 (handle_of (buffer next)); Capture request])
    ∧ onBufferReleased (handle_of (buffer next)) st1
      = Some (set_mState RUNNING st1, true)
    ∧ onBufferReleased (handle_of (buffer p)) st1
      = Some (set_mState RUNNING st1, false).
Proof.
  intros Hwf Hne Hp Hframe Hnext Hhandles.
  eexists _, _. split.
  { by apply (pushToReprocess_handle_of_next_slot Q F requestId st p next). }
  unfold onBufferReleased. simpl. rewrite Hp. simpl.
  rewrite bool_decide_eq_true_2 by done.
  by rewrite bool_decide_eq_false_2 by (by intros []).
Qed.

Lemma release_of_sent_handle_is_logged_witness :
  ∃ st, three_slots_run = Some st
    ∧ ∃ st1 request,
        pushToReprocess 4 7%Z (Some accepting_client) (λ _, OK) st
          = Some (OK, st1,
                  [PushReprocessBuffer (mZslReprocessStreamId st) (Some 12%Z);
                   Capture request])
        ∧ onBufferReleased (Some 12%Z) st1
          = Some (set_mState RUNNING st1, true)
        ∧ onBufferReleased (Some 11%Z) st1
          = Some (set_mState RUNNING st1, false).
Proof.
  eexists. split; [vm_compute; reflexivity|].
  apply (release_of_sent_handle_is_logged 4 8 7%Z _
           {| buffer := item 11%Z 100000000%Z;
              frame := metadata_at 100000000%Z |}
           {| buffer := item 12%Z 200000000%Z;
              frame := CameraMetadata.empty |}).
  - split; simpl; lia.
  - simpl. lia.
  - reflexivity.
  - reflexivity.
  - reflexivity.
  - discriminate.
Defined.

(** ** The streams *)

Lemma written_Some x old : written (Some x) old = x.
Proof. done. Qed.

Lemma deleteStream_without_stream client s :
  mZslStreamId s = NO_STREAM → deleteStream client s = (OK, s, []).
Proof.
  intros Hid. unfold deleteStream.
  by destruct (decide (mZslStreamId s ≠ NO_STREAM)).
Qed.

(** X12.  When [deleteStream] returns OK with a live client, no stream is
    left: the stream id is NO_STREAM; if there was a stream, the device was
    asked to delete the reprocess stream and then the output stream, in
    this order, the reprocess id is NO_STREAM and the consumer is cleared,
    while the rings and the history are as before.  A further
    [deleteStream], with or without client, makes no device call and
    changes nothing. *)
Theorem deleteStream_leaves_nothing device s s' calls :
  deleteStream (Some device) s = (OK, s', calls) →
  getStreamId s' = NO_STREAM
  ∧ (getStreamId s ≠ NO_STREAM →
     getReprocessStreamId s' = NO_STREAM
     ∧ hasConsumer s' = false
     ∧ calls = [DeleteReprocessStream (getReprocessStreamId s);
                DeleteStream (getStreamId s)]
     ∧ mZslQueue (processor s') = mZslQueue (processor s)
     ∧ mFrameList (processor s') = mFrameList (processor s))
  ∧ ∀ client, deleteStream client s' = (OK, s', []).
Proof.
  unfold deleteStream, getStreamId, getReprocessStreamId.
  destruct (decide (mZslStreamId s ≠ NO_STREAM)) as [Hid|Hid].
  - destruct (decide (device_deleteReprocessStream device _ ≠ OK)) as [Hr|Hr].
    { intros [= E]. by rewrite E in Hr. }
    cbn [mZslStreamId].
    destruct (decide (device_deleteStream device _ ≠ OK)) as [Hd|Hd].
    { intros [= E]. by rewrite E in Hd. }
    intros [= <- <-]. cbn.
    split; [done|]. split; [done|].
    intros client. by destruct (decide (NO_STREAM ≠ NO_STREAM)).
  - intros [= <- <-]. apply dec_stable in Hid.
    split; [done|]. split; [done|].
    intros client. by destruct (decide (mZslStreamId s ≠ NO_STREAM)).
Qed.

Lemma deleteStream_leaves_nothing_witness :
  let s := (updateStream {| arrayWidth := 640; arrayHeight := 480 |}
              (Some vga_device) no_streams).1.2 in
  getStreamId s = 5%Z
  ∧ getStreamId (deleteStream (Some vga_device) s).1.2 = NO_STREAM
  ∧ getReprocessStreamId (deleteStream (Some vga_device) s).1.2 = NO_STREAM.
Proof.
  intros s.
  destruct (deleteStream_leaves_nothing vga_device s
              (deleteStream (Some vga_device) s).1.2
              [DeleteReprocessStream 6; DeleteStream 5])
    as (H1 & H2 & _).
  - vm_compute. reflexivity.
  - split; [vm_compute; reflexivity|]. split; [exact H1|].
    apply H2. vm_compute. discriminate.
Defined.

(** X13.  When the device deletes the reprocess stream but refuses to
    delete the output stream, [deleteStream] returns the status of the
    refusal with the processor half way: the output stream id and the
    consumer are kept, the reprocess id is already NO_STREAM.  A second
    [deleteStream] therefore starts by asking the device to delete
    reprocess stream NO_STREAM. *)
Theorem deleteStream_half_done device s res :
  getStreamId s ≠ NO_STREAM →
  device_deleteReprocessStream device (getReprocessStreamId s) = OK →
  device_deleteStream device (getStreamId s) = res →
  res ≠ OK →
  ∃ s1 calls,
    deleteStream (Some device) s = (res, s1, calls)
    ∧ getStreamId s1 = getStreamId s
    ∧ hasConsumer s1 = hasConsumer s
    ∧ getReprocessStreamId s1 = NO_STREAM
    ∧ ∃ rest, (deleteStream (Some device) s1).2
              = DeleteReprocessStream NO_STREAM :: rest.
Proof.
  unfold getStreamId, getReprocessStreamId. intros Hid Hr Hd Hres.
  unfold deleteStream at 1.
  destruct (decide (mZslStreamId s ≠ NO_STREAM)) as [_|?]; [|done].
  rewrite Hr.
  destruct (decide (OK ≠ OK)) as [H|_]; [by destruct H|].
  cbn [mZslStreamId]. rewrite Hd.
  destruct (decide (res ≠ OK)) as [_|?]; [|done].
  eexists _, _. split; [done|]. cbn [mZslStreamId hasConsumer processor].
  split_and!; [done..|].
  unfold deleteStream. cbn [mZslStreamId hasConsumer processor].
  destruct (decide (mZslStreamId s ≠ NO_STREAM)) as [_|?]; [|done].
  cbn [set_mZslReprocessStreamId mZslReprocessStreamId].
  destruct (decide (device_deleteReprocessStream device NO_STREAM ≠ OK)).
  { by eexists. }
  cbn [mZslStreamId]. rewrite Hd.
  destruct (decide (res ≠ OK)) as [_|?]; [|done].
  by eexists.
Qed.

Lemma deleteStream_half_done_witness :
  ∃ s1 calls,
    deleteStream (Some stubborn_device) vga_streams
      = (INVALID_OPERATION, s1, calls)
    ∧ getStreamId s1 = getStreamId vga_streams
    ∧ hasConsumer s1 = hasConsumer vga_streams
    ∧ getReprocessStreamId s1 = NO_STREAM
    ∧ ∃ rest, (deleteStream (Some stubborn_device) s1).2
              = DeleteReprocessStream NO_STREAM :: rest.
Proof.
  apply (deleteStream_half_done stubborn_device vga_streams INVALID_OPERATION).
  - vm_compute. discriminate.
  - reflexivity.
  - reflexivity.
  - vm_compute. discriminate.
Defined.

(** X14.  [updateStream] on a stream whose size is no longer the one asked
    for deletes both streams; when the device then fails to create the new
    output stream (and writes no id), [updateStream] returns that status
    with the stream id NO_STREAM, while the reprocess id still names the
    reprocess stream that was just deleted.  A following [deleteStream]
    makes no device call and leaves that id in place. *)
Theorem updateStream_keeps_deleted_reprocess_id params device s res w h :
  getStreamId s ≠ NO_STREAM →
  device_getStreamInfo device (getStreamId s) = (OK, w, h) →
  w ≠ to_uint32 (arrayWidth params) ∨ h ≠ to_uint32 (arrayHeight params) →
  device_deleteReprocessStream device (getReprocessStreamId s) = OK →
  device_deleteStream device (getStreamId s) = OK →
  device_createStream device (arrayWidth params) (arrayHeight params)
    = (res, None) →
  res ≠ OK →
  ∃ s1,
    updateStream params (Some device) s
      = (res, s1,
         [GetStreamInfo (getStreamId s);
          DeleteReprocessStream (getReprocessStreamId s);
          DeleteStream (getStreamId s);
          CreateStream (arrayWidth params) (arrayHeight params)])
    ∧ getStreamId s1 = NO_STREAM
    ∧ getReprocessStreamId s1 = getReprocessStreamId s
    ∧ ∀ client, deleteStream client s1 = (OK, s1, []).
Proof.
  unfold getStreamId, getReprocessStreamId.
  intros Hid Hinfo Hsize Hr Hd Hc Hres.
  set (s0 := if hasConsumer s then s
             else {| processor := set_mZslConsumer (source []) (processor s);
                     mZslStreamId := mZslStreamId s;
                     hasConsumer := true |}).
  assert (mZslStreamId s0 = mZslStreamId s) as Hid0
    by (unfold s0; by destruct (hasConsumer s)).
  assert (mZslReprocessStreamId (processor s0)
          = mZslReprocessStreamId (processor s)) as Hrid0
    by (unfold s0; by destruct (hasConsumer s)).
  assert (checkStream params device s0
          = (OK,
             {| processor := processor s0; mZslStreamId := NO_STREAM;
                hasConsumer := hasConsumer s0 |},
             [GetStreamInfo (mZslStreamId s);
              DeleteReprocessStream (mZslReprocessStreamId (processor s));
              DeleteStream (mZslStreamId s)])) as Hcheck.
  { unfold checkStream. rewrite Hid0, Hrid0.
    destruct (decide (mZslStreamId s ≠ NO_STREAM)) as [_|?]; [|done].
    rewrite Hinfo.
    destruct (decide (OK ≠ OK)) as [H|_]; [by destruct H|].
    destruct (decide (w ≠ to_uint32 (arrayWidth params)
                      ∨ h ≠ to_uint32 (arrayHeight params))) as [_|?]; [|done].
    rewrite Hr.
    destruct (decide (OK ≠ OK)) as [H|_]; [by destruct H|].
    rewrite Hd.
    destruct (decide (OK ≠ OK)) as [H|_]; [by destruct H|].
    done. }
  unfold updateStream. fold s0. rewrite Hcheck.
  destruct (decide (OK ≠ OK)) as [H|_]; [by destruct H|].
  unfold createStreams. cbn [mZslStreamId processor hasConsumer].
  destruct (decide (NO_STREAM = NO_STREAM)) as [_|?]; [|done].
  rewrite Hc.
  destruct (decide (res ≠ OK)) as [_|?]; [|done].
  destruct (decide (res ≠ OK)) as [_|?]; [|done].
  eexists. split; [done|].
  cbn [mZslStreamId processor hasConsumer written default].
  split_and!; [done..|].
  intros client. by apply deleteStream_without_stream.
Qed.

Lemma updateStream_keeps_deleted_reprocess_id_witness :
  ∃ s1,
    updateStream {| arrayWidth := 1280; arrayHeight := 960 |}
      (Some exhausted_device) vga_streams
      = (INVALID_OPERATION, s1,
         [GetStreamInfo 5; DeleteReprocessStream 6; DeleteStream 5;
          CreateStream 1280 960])
    ∧ getStreamId s1 = NO_STREAM
    ∧ getReprocessStreamId s1 = 6%Z
    ∧ ∀ client, deleteStream client s1 = (OK, s1, []).
Proof.
  apply (updateStream_keeps_deleted_reprocess_id
           {| arrayWidth := 1280; arrayHeight := 960 |}
           exhausted_device vga_streams INVALID_OPERATION 640 480).
  - vm_compute. discriminate.
  - reflexivity.
  - left. vm_compute. discriminate.
  - reflexivity.
  - reflexivity.
  - reflexivity.
  - vm_compute. discriminate.
Defined.

(** X15.  [updateStream] settles: starting without a stream, with a device
    that creates output stream [id] and reprocess stream [rid] and reports
    for [id] the size asked for, the first call creates the two streams and
    registers the listener; a second call with the same parameters only
    queries the size and registers the listener again: it deletes and
    creates nothing and leaves the processor as it is. *)
Theorem updateStream_settles params device s id rid :
  getStreamId s = NO_STREAM →
  id ≠ NO_STREAM →
  device_createStream device (arrayWidth params) (arrayHeight params)
    = (OK, Some id) →
  device_createReprocessStreamFromStream device id = (OK, Some rid) →
  device_getStreamInfo device id
    = (OK, to_uint32 (arrayWidth params), to_uint32 (arrayHeight params)) →
  ∃ s1,
    updateStream params (Some device) s
      = (OK, s1,
         [CreateStream (arrayWidth params) (arrayHeight params);
          CreateReprocessStreamFromStream id;
          RegisterFrameListener])
    ∧ getStreamId s1 = id
    ∧ getReprocessStreamId s1 = rid
    ∧ hasConsumer s1 = true
    ∧ updateStream params (Some device) s1
      = (OK, s1, [GetStreamInfo id; RegisterFrameListener]).
Proof.
  unfold getStreamId, getReprocessStreamId.
  intros Hid Hne Hc Hcr Hinfo.
  set (s0 := if hasConsumer s then s
             else {| processor := set_mZslConsumer (source []) (processor s);
                     mZslStreamId := mZslStreamId s;
                     hasConsumer := true |}).
  assert (mZslStreamId s0 = NO_STREAM) as Hid0
    by (unfold s0; by destruct (hasConsumer s)).
  assert (hasConsumer s0 = true) as Hcons0
    by (unfold s0; by destruct (hasConsumer s) eqn:E).
  unfold updateStream at 1. fold s0.
  unfold checkStream at 1. rewrite Hid0.
  destruct (decide (NO_STREAM ≠ NO_STREAM)) as [?|_]; [done|].
  destruct (decide (OK ≠ OK)) as [H|_]; [by destruct H|].
  unfold createStreams at 1. rewrite Hid0.
  destruct (decide (NO_STREAM = NO_STREAM)) as [_|?]; [|done].
  rewrite Hc.
  destruct (decide (OK ≠ OK)) as [H|_]; [by destruct H|].
  cbn [mZslStreamId processor hasConsumer]. rewrite !written_Some, Hcr.
  destruct (decide (OK ≠ OK)) as [H|_]; [by destruct H|].
  destruct (decide (OK ≠ OK)) as [H|_]; [by destruct H|].
  eexists. split; [done|].
  rewrite written_Some.
  cbn [mZslStreamId processor hasConsumer
       set_mZslReprocessStreamId mZslReprocessStreamId].
  split_and!; [done..|].
  unfold updateStream. cbn [hasConsumer]. rewrite Hcons0.
  unfold checkStream. cbn [mZslStreamId].
  destruct (decide (id ≠ NO_STREAM)) as [_|?]; [|done].
  rewrite Hinfo.
  destruct (decide (OK ≠ OK)) as [H|_]; [by destruct H|].
  destruct (decide (to_uint32 (arrayWidth params) ≠ to_uint32 (arrayWidth params)
                    ∨ to_uint32 (arrayHeight params)
                      ≠ to_uint32 (arrayHeight params))) as [[?|?]|_]; [done..|].
  destruct (decide (OK ≠ OK)) as [H|_]; [by destruct H|].
  unfold createStreams. cbn [mZslStreamId].
  destruct (decide (id = NO_STREAM)) as [?|_]; [done|].
  destruct (decide (OK ≠ OK)) as [H|_]; [by destruct H|].
  done.
Qed.

Lemma updateStream_settles_witness :
  ∃ s1,
    updateStream {| arrayWidth := 640; arrayHeight := 480 |}
      (Some vga_device) no_streams
      = (OK, s1,
         [CreateStream 640 480; CreateReprocessStreamFromStream 5;
          RegisterFrameListener])
    ∧ getStreamId s1 = 5%Z
    ∧ getReprocessStreamId s1 = 6%Z
    ∧ hasConsumer s1 = true
    ∧ updateStream {| arrayWidth := 640; arrayHeight := 480 |}
        (Some vga_device) s1
      = (OK, s1, [GetStreamInfo 5; RegisterFrameListener]).
Proof.
  apply (updateStream_settles {| arrayWidth := 640; arrayHeight := 480 |}
           vga_device no_streams 5 6).
  - reflexivity.
  - vm_compute. discriminate.
  - reflexivity.
  - reflexivity.
  - reflexivity.
Defined.
